(** * CharacterSearch: the search-and-select widget and its query fetcher

    A shallow embedding of the [CharacterSearch] React component (its seven
    state variables, its effect and its event handlers) and of the query
    fetcher, which the component file defines as [fetchCharacters] and
    [helpers/fetchDataHepler.ts] as [fetchDataHelper]. Line numbers in the
    comments are those of the component file unless the helper is named.

    Conventions of the embedding:
    - a JavaScript [number] that is used as an array index is [number]:
      an integer or [NaN] (the remainder by a zero length produces [NaN]);
      [-0] is identified with [0], which no operation of the component
      distinguishes, and integers are taken exact;
    - a character [id] is an integer;
    - the component state is the record [State]; an event handler maps a
      [State] to an [Update]: the state after its [set...] calls, whether
      [setSelectedCharacters] was called (every call passes a freshly
      allocated array, so the effect's dependency changes by identity), and
      the toasts it raised;
    - the effect of lines 53-74 runs after a handler when one of its two
      dependencies changed; the requests it issues are kept in the [World],
      each with the [selectedCharacters] its [then] callback closed over;
    - the network is the environment: a settled request is an event. *)

From Stdlib Require Import ZArith Lia.
From stdpp Require Import base list strings.

Open Scope Z_scope.

Set Warnings "-register-all".

(** * The model *)

(** ** Data *)

Record Character := mkCharacter {
  id : Z;
  name : string;
  image : string;
  episode : list string
}.

(** A JavaScript number used as a cursor. *)
Inductive number :=
  | Num (z : Z)
  | NaN.

Inductive Toast :=
  | ToastSuccess (msg : string)
  | ToastError (msg : string).

Record State := mkState {
  query : string;
  characters : list Character;
  loading : bool;
  highlightedIndex : number;
  selectedCharacters : list Character;
  addedCharacters : list Character;
  error : option string
}.

(** [useState] initial values, lines 45-51. *)
Definition initialState : State :=
  {| query := "";
     characters := [];
     loading := false;
     highlightedIndex := Num 0;
     selectedCharacters := [];
     addedCharacters := [];
     error := None |}.

Definition setQuery (q : string) (s : State) : State :=
  {| query := q; characters := characters s; loading := loading s;
     highlightedIndex := highlightedIndex s;
     selectedCharacters := selectedCharacters s;
     addedCharacters := addedCharacters s; error := error s |}.

Definition setCharacters (l : list Character) (s : State) : State :=
  {| query := query s; characters := l; loading := loading s;
     highlightedIndex := highlightedIndex s;
     selectedCharacters := selectedCharacters s;
     addedCharacters := addedCharacters s; error := error s |}.

Definition setLoading (b : bool) (s : State) : State :=
  {| query := query s; characters := characters s; loading := b;
     highlightedIndex := highlightedIndex s;
     selectedCharacters := selectedCharacters s;
     addedCharacters := addedCharacters s; error := error s |}.

Definition setHighlightedIndex (n : number) (s : State) : State :=
  {| query := query s; characters := characters s; loading := loading s;
     highlightedIndex := n;
     selectedCharacters := selectedCharacters s;
     addedCharacters := addedCharacters s; error := error s |}.

Definition setSelectedCharacters (l : list Character) (s : State) : State :=
  {| query := query s; characters := characters s; loading := loading s;
     highlightedIndex := highlightedIndex s;
     selectedCharacters := l;
     addedCharacters := addedCharacters s; error := error s |}.

Definition setAddedCharacters (l : list Character) (s : State) : State :=
  {| query := query s; characters := characters s; loading := loading s;
     highlightedIndex := highlightedIndex s;
     selectedCharacters := selectedCharacters s;
     addedCharacters := l; error := error s |}.

Definition setError (e : option string) (s : State) : State :=
  {| query := query s; characters := characters s; loading := loading s;
     highlightedIndex := highlightedIndex s;
     selectedCharacters := selectedCharacters s;
     addedCharacters := addedCharacters s; error := e |}.

(** ** JavaScript primitives used by the component *)

(** [Array.prototype.some]. *)
Definition some {A} (p : A → bool) (l : list A) : bool := existsb p l.

(** [Array.prototype.find]. *)
Definition find {A} (p : A → bool) (l : list A) : option A := List.find p l.

(** [l.length] as a number. *)
Definition len {A} (l : list A) : Z := Z.of_nat (length l).

(** [a % b] on numbers: the remainder takes the sign of the dividend, and
    the remainder by zero is [NaN]. *)
Definition js_rem (a : number) (b : Z) : number :=
  match a with
  | Num x => if b =? 0 then NaN else Num (Z.rem x b)
  | NaN => NaN
  end.

Definition js_add (a : number) (k : Z) : number :=
  match a with
  | Num x => Num (x + k)
  | NaN => NaN
  end.

(** [a === 0]. *)
Definition js_is_zero (a : number) : bool :=
  match a with
  | Num x => x =? 0
  | NaN => false
  end.

(** [l[i]]: [undefined] ([None]) unless [i] is an index of [l]. *)
Definition js_index {A} (l : list A) (i : number) : option A :=
  match i with
  | Num z => if z <? 0 then None else l !! Z.to_nat z
  | NaN => None
  end.

(** A JavaScript string is truthy when it is not empty. *)
Definition truthy (q : string) : bool := negb (String.eqb q "").

(** The same character by [id]: [c.id === character.id]. *)
Definition same_id (character c : Character) : bool := id c =? id character.

(** ** Event handlers *)

Record Update := mkUpdate {
  next : State;
  selectedSet : bool;
  toasted : list Toast
}.

Definition quiet (s : State) : Update :=
  {| next := s; selectedSet := false; toasted := [] |}.

(** What running a handler does: it returns, having queued its updates; or
    it throws before any update (the state is kept, the widget lives on);
    or it returns and the render that follows throws, which unmounts the
    widget. *)
Inductive Handled :=
  | Returns (u : Update)
  | HandlerThrows
  | RenderThrows.

(** Lines 76-78. *)
Definition handleInputChange (value : string) (s : State) : Update :=
  quiet (setQuery value s).

(** Lines 80-86. *)
Definition handleSelectCharacter (character : Character) (s : State) : Update :=
  match find (same_id character) (selectedCharacters s) with
  | None =>
      {| next := setCharacters [] (setQuery ""
                   (setSelectedCharacters (selectedCharacters s ++ [character]) s));
         selectedSet := true;
         toasted := [] |}
  | Some _ => quiet (setCharacters [] (setQuery "" s))
  end.

(** Lines 88-90. *)
Definition handleRemoveCharacter (i : Z) (s : State) : Update :=
  {| next := setSelectedCharacters
               (filter (λ c, negb (id c =? i)) (selectedCharacters s)) s;
     selectedSet := true;
     toasted := [] |}.

(** Lines 91-102. *)
Definition handleRemoveCharacterList (i : Z) (s : State) : Update :=
  {| next := setAddedCharacters
               (filter (λ c, negb (id c =? i)) (addedCharacters s)) s;
     selectedSet := false;
     toasted := [ToastSuccess "Başarıyla kaldırıldı"] |}.

(** Lines 105-107. *)
Definition uniqueCharacters (s : State) : list Character :=
  filter (λ character, negb (some (same_id character) (addedCharacters s)))
         (selectedCharacters s).

(** Lines 104-131. *)
Definition handleAddCharacters (s : State) : Update :=
  if 0 <? len (uniqueCharacters s) then
    {| next := setSelectedCharacters []
                 (setAddedCharacters (addedCharacters s ++ uniqueCharacters s) s);
       selectedSet := true;
       toasted := [ToastSuccess "Başarıyla eklendi"] |}
  else
    {| next := s; selectedSet := false;
       toasted := [ToastError "Lütfen tekrar deneyiniz."] |}.

(** Lines 133-145. [characters[highlightedIndex]] is [undefined] when the
    cursor is not an index of the list; [handleSelectCharacter(undefined)]
    then reads [character.id] inside the callback of [find]: with an entry in
    [selectedCharacters] the callback runs and throws a [TypeError]; with
    none it never runs, [undefined] is appended to [selectedCharacters], and
    the next render throws on [character.id] at line 154. *)
Definition handleKeyDown (key : string) (s : State) : Handled :=
  if String.eqb key "ArrowDown" then
    Returns (quiet (setHighlightedIndex
      (js_rem (js_add (highlightedIndex s) 1) (len (characters s))) s))
  else if String.eqb key "ArrowUp" then
    Returns (quiet (setHighlightedIndex
      (if js_is_zero (highlightedIndex s)
       then Num (len (characters s) - 1)
       else js_add (highlightedIndex s) (-1)) s))
  else if String.eqb key "Enter" then
    if 0 <? len (characters s) then
      match js_index (characters s) (highlightedIndex s) with
      | Some character => Returns (handleSelectCharacter character s)
      | None =>
          match selectedCharacters s with
          | [] => RenderThrows
          | _ :: _ => HandlerThrows
          end
      end
    else Returns (quiet s)
  else Returns (quiet s).

(** Line 189. *)
Definition handleMouseEnter (index : nat) (s : State) : Update :=
  quiet (setHighlightedIndex (Num (Z.of_nat index)) s).

(** The results list is rendered under the condition of line 183. *)
Definition resultsVisible (s : State) : bool :=
  negb (loading s) && negb (bool_decide (is_Some (error s)))
  && (0 <? len (characters s)).

(** ** The effect and the requests in flight *)

(** A request issued at line 57: the query it was issued for, the
    [selectedCharacters] its [then] callback closed over, and whether its
    promise has settled. *)
Record Request := mkRequest {
  rq_query : string;
  rq_selected : list Character;
  rq_settled : bool
}.

Definition settle (r : Request) : Request :=
  {| rq_query := rq_query r; rq_selected := rq_selected r; rq_settled := true |}.

Record World := mkWorld {
  ui : State;
  requests : list Request;
  toasts : list Toast
}.

Definition initialWorld : World :=
  {| ui := initialState; requests := []; toasts := [] |}.

(** Lines 54-73, up to the call of [fetchCharacters]. *)
Definition useEffect (s : State) (reqs : list Request) : State * list Request :=
  if truthy (query s) then
    (setError None (setLoading true s),
     reqs ++ [ {| rq_query := query s;
                  rq_selected := selectedCharacters s;
                  rq_settled := false |} ])
  else (setCharacters [] s, reqs).

(** Lines 60-62: the filter of the [then] callback, over the
    [selectedCharacters] of its closure. *)
Definition filteredData (selected data : list Character) : list Character :=
  filter (λ character, negb (some (same_id character) selected)) data.

(** Lines 58-66. *)
Definition onFulfilled (r : Request) (data : list Character) (s : State) : State :=
  setLoading false (setCharacters (filteredData (rq_selected r) data) s).

(** Lines 67-70. *)
Definition onRejected (s : State) : State :=
  setError (Some "Error fetching characters") (setLoading false s).

(** The dependency array of line 74. *)
Definition depsChanged (old : State) (u : Update) : bool :=
  selectedSet u || negb (String.eqb (query old) (query (next u))).

(** A handler's updates are applied, then the effect runs if a dependency
    changed. *)
Definition commit (w : World) (u : Update) : World :=
  let (s, reqs) :=
    if depsChanged (ui w) u then useEffect (next u) (requests w)
    else (next u, requests w) in
  {| ui := s; requests := reqs; toasts := toasts w ++ toasted u |}.

(** ** Events *)

Inductive Event :=
  | InputChange (value : string)
  | KeyDown (key : string)
  | MouseEnter (index : nat)
  | Click (index : nat)
  | ClickRemoveTag (i : Z)
  | ClickRemoveAdded (i : Z)
  | ClickAdd
  | FetchResolve (n : nat) (data : list Character)
  | FetchReject (n : nat).

Inductive Outcome :=
  | Next (w : World)
  | Throws
  | Crash
  | NotEnabled.

Definition handled (w : World) (h : Handled) : Outcome :=
  match h with
  | Returns u => Next (commit w u)
  | HandlerThrows => Throws
  | RenderThrows => Crash
  end.

(** The [n]-th request, if it is still pending. *)
Definition pending (w : World) (n : nat) : option Request :=
  match requests w !! n with
  | Some r => if rq_settled r then None else Some r
  | None => None
  end.

(** One event. The elements that raise mouse events exist only as rendered:
    a result row under the condition of line 183, a remove button for an
    entry of the list it belongs to. *)
Definition step (e : Event) (w : World) : Outcome :=
  let s := ui w in
  match e with
  | InputChange value => Next (commit w (handleInputChange value s))
  | KeyDown key => handled w (handleKeyDown key s)
  | MouseEnter index =>
      match characters s !! index with
      | Some _ =>
          if resultsVisible s then Next (commit w (handleMouseEnter index s))
          else NotEnabled
      | None => NotEnabled
      end
  | Click index =>
      match characters s !! index with
      | Some character =>
          if resultsVisible s
          then Next (commit w (handleSelectCharacter character s))
          else NotEnabled
      | None => NotEnabled
      end
  | ClickRemoveTag i =>
      if some (λ c, id c =? i) (selectedCharacters s)
      then Next (commit w (handleRemoveCharacter i s))
      else NotEnabled
  | ClickRemoveAdded i =>
      if some (λ c, id c =? i) (addedCharacters s)
      then Next (commit w (handleRemoveCharacterList i s))
      else NotEnabled
  | ClickAdd => Next (commit w (handleAddCharacters s))
  | FetchResolve n data =>
      match pending w n with
      | Some r =>
          Next {| ui := onFulfilled r data s;
                  requests := <[n := settle r]> (requests w);
                  toasts := toasts w |}
      | None => NotEnabled
      end
  | FetchReject n =>
      match pending w n with
      | Some r =>
          Next {| ui := onRejected s;
                  requests := <[n := settle r]> (requests w);
                  toasts := toasts w |}
      | None => NotEnabled
      end
  end.

(** A run of events from a world; a handler that throws leaves the world as
    it was, a crash or an event that is not enabled ends the run. *)
Fixpoint run (es : list Event) (w : World) : option World :=
  match es with
  | [] => Some w
  | e :: es' =>
      match step e w with
      | Next w' => run es' w'
      | Throws => run es' w
      | Crash | NotEnabled => None
      end
  end.

Inductive reachable : World → Prop :=
  | reachable_init : reachable initialWorld
  | reachable_step e w w' :
      reachable w → step e w = Next w' → reachable w'.

(** ** Vocabulary of the properties *)

(** Membership by [id]. *)
Definition has_id (i : Z) (l : list Character) : Prop := i ∈ (id <$> l).

(** The cursor addresses a candidate of the list. *)
Definition inRange (s : State) : Prop :=
  ∃ z, highlightedIndex s = Num z ∧ 0 ≤ z < len (characters s).

(** The cursor that ArrowDown stores: the updater of line 135. *)
Definition arrowDown (s : State) : number :=
  js_rem (js_add (highlightedIndex s) 1) (len (characters s)).

(** The cursor that ArrowUp stores: the updater of lines 137-139. *)
Definition arrowUp (s : State) : number :=
  if js_is_zero (highlightedIndex s)
  then Num (len (characters s) - 1)
  else js_add (highlightedIndex s) (-1).

(** The events that write the cursor: lines 135, 137 and 189. *)
Definition movesHighlight (e : Event) : bool :=
  match e with
  | KeyDown key => String.eqb key "ArrowDown" || String.eqb key "ArrowUp"
  | MouseEnter _ => true
  | _ => false
  end.

(** The two gestures that commit a candidate: Enter commits the one under
    the cursor, a click commits the clicked result row. *)
Inductive Gesture :=
  | ByEnter
  | ByClick (index : nat).


(** The candidate a gesture commits: [characters[highlightedIndex]] at
    line 142, the [character] of the rendered row at line 190. *)
Definition target (g : Gesture) (s : State) : option Character :=
  match g with
  | ByEnter => js_index (characters s) (highlightedIndex s)
  | ByClick index =>
      if resultsVisible s then characters s !! index else None
  end.

(** The state after [character] was committed from [w]. *)
Definition committed (character : Character) (w w' : World) : Prop :=
  query (ui w') = "" ∧
  characters (ui w') = [] ∧
  selectedCharacters (ui w') =
    (if some (same_id character) (selectedCharacters (ui w))
     then selectedCharacters (ui w)
     else selectedCharacters (ui w) ++ [character]) ∧
  addedCharacters (ui w') = addedCharacters (ui w).

(** The updates an event handler can return in state [s]. *)
Inductive handlerUpdate (s : State) : Update → Prop :=
  | hu_input value : handlerUpdate s (handleInputChange value s)
  | hu_select character : handlerUpdate s (handleSelectCharacter character s)
  | hu_remove i : handlerUpdate s (handleRemoveCharacter i s)
  | hu_remove_list i : handlerUpdate s (handleRemoveCharacterList i s)
  | hu_add : handlerUpdate s (handleAddCharacters s)
  | hu_highlight n : handlerUpdate s (quiet (setHighlightedIndex n s))
  | hu_nothing : handlerUpdate s (quiet s).

(** A step is a handler's update followed by the effect, or the settling of
    a pending request. *)
Inductive stepShape (w w' : World) : Prop :=
  | shape_handler u :
      handlerUpdate (ui w) u → w' = commit w u → stepShape w w'
  | shape_fulfilled n r data :
      pending w n = Some r →
      w' = {| ui := onFulfilled r data (ui w);
              requests := <[n := settle r]> (requests w);
              toasts := toasts w |} →
      stepShape w w'
  | shape_rejected n r :
      pending w n = Some r →
      w' = {| ui := onRejected (ui w);
              requests := <[n := settle r]> (requests w);
              toasts := toasts w |} →
      stepShape w w'.

(** While a query is typed, the request issued last is the one for the
    current query and closed over the current [selectedCharacters]. *)
Definition latestCurrent (w : World) : Prop :=
  truthy (query (ui w)) = true →
  ∃ r, last (requests w) = Some r ∧
       rq_query r = query (ui w) ∧
       rq_selected r = selectedCharacters (ui w).

(** No id occurs twice. *)
Definition uniqueIds (l : list Character) : Prop := NoDup (id <$> l).

(** ** The query fetcher *)

(** A parsed JSON value. Of a number only whether it is zero matters
    here; it is kept as an integer. *)
Inductive json :=
  | JNull
  | JBool (b : bool)
  | JNum (z : Z)
  | JStr (s : string)
  | JArr (items : list json)
  | JObj (members : list (string * json)).

(** What [fetch] resolves with: a response whose [json()] resolves with the
    parsed body, or rejects when the body is not JSON. *)
Record Response := mkResponse {
  body : option json
}.

Inductive Failure :=
  | NetworkError
  | SyntaxError
  | TypeError.

(** The settled promise of an [async] function. *)
Inductive Settled :=
  | Fulfilled (value : json)
  | Rejected (reason : Failure).

(** The value of a member of a parsed object; when the text repeats a key,
    the later member has overwritten the earlier one. *)
Fixpoint member (key : string) (members : list (string * json)) : option json :=
  match members with
  | [] => None
  | (k, v) :: rest =>
      match member key rest with
      | Some v' => Some v'
      | None => if String.eqb k key then Some v else None
      end
  end.

(** Reading a property of a value: [data.results]. *)
Inductive PropertyRead :=
  | Value (v : json)
  | Undefined
  | ReadThrows.

(** [null] has no properties and reading one throws a [TypeError]; a
    boolean, a number, a string and an array have no property of a name
    such as [results]; an object has its members. *)
Definition getProperty (data : json) (key : string) : PropertyRead :=
  match data with
  | JNull => ReadThrows
  | JObj members =>
      match member key members with
      | Some v => Value v
      | None => Undefined
      end
  | _ => Undefined
  end.

Definition json_truthy (v : json) : bool :=
  match v with
  | JNull => false
  | JBool b => b
  | JNum z => negb (z =? 0)
  | JStr s => truthy s
  | JArr _ | JObj _ => true
  end.

(** [read || []]. *)
Definition orEmptyArray (read : PropertyRead) : json :=
  match read with
  | Value v => if json_truthy v then v else JArr []
  | _ => JArr []
  end.

Definition endpoint (query : string) : string :=
  "https://rickandmortyapi.com/api/character/?name=" +:+ query.

Section fetcher.
Variable fetch : string → option Response.

(** The component file, lines 14-25. The [catch] block logs the error and
    throws it again. *)
Definition fetchCharacters (query : string) : Settled :=
  match fetch (endpoint query) with
  | None => Rejected NetworkError
  | Some response =>
      match body response with
      | None => Rejected SyntaxError
      | Some data =>
          match getProperty data "results" with
          | ReadThrows => Rejected TypeError
          | read => Fulfilled (orEmptyArray read)
          end
      end
  end.

(** [helpers/fetchDataHepler.ts], lines 8-19. *)
Definition fetchDataHelper (query : string) : Settled :=
  match fetch (endpoint query) with
  | None => Rejected NetworkError
  | Some response =>
      match body response with
      | None => Rejected SyntaxError
      | Some data =>
          match getProperty data "results" with
          | ReadThrows => Rejected TypeError
          | read => Fulfilled (orEmptyArray read)
          end
      end
  end.

End fetcher.

(** ** Sample data and runs *)

Definition rick : Character :=
  {| id := 1; name := "Rick Sanchez"; image := "1.jpeg"; episode := ["1"; "2"] |}.
Definition morty : Character :=
  {| id := 2; name := "Morty Smith"; image := "2.jpeg"; episode := ["1"] |}.
Definition summer : Character :=
  {| id := 3; name := "Summer Smith"; image := "3.jpeg"; episode := [] |}.

(** The world after a run of events from the initial one. *)
Definition after (es : list Event) : World :=
  default initialWorld (run es initialWorld).

(** Rick is selected and added, then found and selected again. *)
Definition reselected : World :=
  after [InputChange "a"; FetchResolve 0 [rick]; Click 0; ClickAdd;
         InputChange "a"; FetchResolve 1 [rick]; Click 0].

(** Morty is selected; the cursor was moved down a list of two that a
    narrower query then replaced by a list of one. *)
Definition shrunk : World :=
  after [InputChange "a"; FetchResolve 0 [rick; morty; summer]; Click 1;
         InputChange "a"; FetchResolve 1 [rick; morty; summer];
         KeyDown "ArrowDown"; InputChange "ri"; FetchResolve 2 [rick]].

(** Rick is added; a new query is typed and its request is in flight. *)
Definition added_then_query : World :=
  after [InputChange "a"; FetchResolve 0 [rick]; Click 0; ClickAdd;
         InputChange "r"].

(** A list of results is shown; a longer query is typed and its request is
    in flight. *)
Definition refining : World :=
  after [InputChange "a"; FetchResolve 0 [rick; morty]; InputChange "ab"].

(** Three candidates are shown and the cursor is on the last one. *)
Definition on_last : World :=
  after [InputChange "a"; FetchResolve 0 [rick; morty; summer];
         KeyDown "ArrowDown"; KeyDown "ArrowDown"].

(** The directory answers every request with the body [null]. *)
Definition answersNull (url : string) : option Response :=
  Some {| body := Some JNull |}.

(** The directory answers with one character under [results]. *)
Definition answersRick (url : string) : option Response :=
  Some {| body := Some (JObj [("info", JObj [("count", JNum 1)]);
                              ("results", JArr [JObj [("id", JNum 1);
                                                      ("name", JStr "Rick Sanchez")]])]) |}.

(** ** Vocabulary of the further properties *)

(** The world with another cursor. *)
Definition withCursor (n : number) (w : World) : World :=
  {| ui := setHighlightedIndex n (ui w);
     requests := requests w; toasts := toasts w |}.

(** The request the effect issues in state [s]: line 57 with the closure of
    lines 58-66. *)
Definition issued (s : State) : Request :=
  {| rq_query := query s; rq_selected := selectedCharacters s;
     rq_settled := false |}.

(** The events whose handlers call [setSelectedCharacters]: Enter and a
    click on a row (line 82), the remove button of a tag (line 89) and the
    Add button (line 110). *)
Definition writesSelected (e : Event) : bool :=
  match e with
  | KeyDown key => String.eqb key "Enter"
  | Click _ | ClickRemoveTag _ | ClickAdd => true
  | _ => false
  end.

(** The events whose handlers call [setAddedCharacters]: lines 92 and
    109. *)
Definition writesAdded (e : Event) : bool :=
  match e with
  | ClickAdd | ClickRemoveAdded _ => true
  | _ => false
  end.

(** The toasts an event raises: lines 93, 111 and 121. *)
Definition raised (e : Event) (w : World) : list Toast :=
  match e with
  | ClickAdd =>
      match uniqueCharacters (ui w) with
      | [] => [ToastError "Lütfen tekrar deneyiniz."]
      | _ :: _ => [ToastSuccess "Başarıyla eklendi"]
      end
  | ClickRemoveAdded _ => [ToastSuccess "Başarıyla kaldırıldı"]
  | _ => []
  end.

(** Two requests are in flight and the first one has failed. *)
Definition failed_while_refining : World :=
  after [InputChange "a"; InputChange "ab"; FetchReject 0].

(** Summer and Rick are selected and a query is typed. *)
Definition two_selected : World :=
  after [InputChange "s"; FetchResolve 0 [summer; rick]; Click 0;
         InputChange "r"; FetchResolve 1 [rick; morty]; Click 0;
         InputChange "m"].

(** The cursor is [NaN] on a list of one. *)
Definition nan_on_list : World :=
  after [KeyDown "ArrowDown"; InputChange "a"; FetchResolve 0 [rick]].

(** The directory answers with a string under [results]. *)
Definition answersText (url : string) : option Response :=
  Some {| body := Some (JObj [("results", JStr "none")]) |}.

(** * Properties *)

(** ** Properties of the primitives *)

Section primitives.
Context {A : Type}.
Implicit Types (p : A → bool) (l : list A).

Lemma some_true p l : some p l = true ↔ ∃ x, x ∈ l ∧ p x = true.
Proof.
  unfold some. rewrite existsb_exists.
  split; intros (x & H1 & H2); exists x; split; auto;
    by apply list_elem_of_In.
Qed.

Lemma some_false p l : some p l = false ↔ ∀ x, x ∈ l → p x = false.
Proof.
  rewrite <- not_true_iff_false, some_true. split.
  - intros H x Hx. destruct (p x) eqn:E; [|done].
    exfalso. apply H. eauto.
  - intros H (x & Hx & Hp). rewrite (H x Hx) in Hp. done.
Qed.

Lemma find_some p l : find p l = None ↔ some p l = false.
Proof.
  unfold find, some. induction l as [|x l IH]; simpl; [done|].
  destruct (p x); simpl; [split; discriminate | done].
Qed.

Lemma len_pos l : (0 <? len l) = true ↔ l ≠ [].
Proof.
  unfold len. destruct l; simpl; split; try done; intros _; lia.
Qed.

Lemma len_nil l : (0 <? len l) = false ↔ l = [].
Proof.
  unfold len. destruct l; simpl; split; try done; intros _; lia.
Qed.

Lemma js_index_Some l i x :
  js_index l i = Some x ↔
  ∃ z, i = Num z ∧ 0 ≤ z < len l ∧ l !! Z.to_nat z = Some x.
Proof.
  unfold js_index, len. split.
  - destruct i as [z|]; [|done].
    destruct (Z.ltb_spec z 0); [done|]. intros Hx.
    exists z. repeat split; auto.
    apply lookup_lt_Some in Hx. lia.
  - intros (z & -> & Hz & Hx).
    destruct (Z.ltb_spec z 0); [lia | done].
Qed.
End primitives.

Lemma some_same_id character l :
  some (same_id character) l = true ↔ has_id (id character) l.
Proof.
  unfold has_id. rewrite some_true, list_elem_of_fmap. unfold same_id.
  split.
  - intros (c & Hc & E). apply Z.eqb_eq in E. eauto.
  - intros (c & E & Hc). exists c. split; [done|]. by apply Z.eqb_eq.
Qed.

Lemma not_some_same_id character l :
  negb (some (same_id character) l) ↔ ¬ has_id (id character) l.
Proof.
  rewrite negb_True, Is_true_true. by rewrite some_same_id.
Qed.


Lemma elem_of_uniqueCharacters s c :
  c ∈ uniqueCharacters s ↔
  c ∈ selectedCharacters s ∧ ¬ has_id (id c) (addedCharacters s).
Proof.
  unfold uniqueCharacters. rewrite list_elem_of_filter, not_some_same_id. tauto.
Qed.

(** Removing by [id] keeps the entries with another [id], in their order. *)
Lemma elem_of_remove_id i (l : list Character) c :
  c ∈ filter (λ c, negb (id c =? i)) l ↔ c ∈ l ∧ id c ≠ i.
Proof.
  rewrite list_elem_of_filter, negb_True, Is_true_true, Z.eqb_eq. tauto.
Qed.

Lemma NoDup_ids_filter (P : Character → Prop) `{∀ c, Decision (P c)}
    (l : list Character) :
  NoDup (id <$> l) → NoDup (id <$> filter P l).
Proof.
  induction l as [|c l IH]; simpl; [done|].
  rewrite NoDup_cons. intros [Hc Hl].
  rewrite filter_cons. destruct (decide (P c)); [|by apply IH].
  rewrite fmap_cons, NoDup_cons. split; [|by apply IH].
  intros Hin. apply Hc.
  apply list_elem_of_fmap in Hin as (c' & E & Hc').
  apply list_elem_of_filter in Hc' as [_ Hc'].
  apply list_elem_of_fmap. eauto.
Qed.

(** ** What the effect leaves alone *)

Lemma useEffect_fields s reqs :
  let s' := (useEffect s reqs).1 in
  query s' = query s ∧
  highlightedIndex s' = highlightedIndex s ∧
  selectedCharacters s' = selectedCharacters s ∧
  addedCharacters s' = addedCharacters s.
Proof. unfold useEffect. by destruct (truthy (query s)). Qed.

Lemma commit_fields w u :
  let s' := ui (commit w u) in
  query s' = query (next u) ∧
  highlightedIndex s' = highlightedIndex (next u) ∧
  selectedCharacters s' = selectedCharacters (next u) ∧
  addedCharacters s' = addedCharacters (next u) ∧
  toasts (commit w u) = toasts w ++ toasted u.
Proof.
  unfold commit. destruct (depsChanged (ui w) u).
  - pose proof (useEffect_fields (next u) (requests w)) as H.
    destruct (useEffect (next u) (requests w)). simpl in *. tauto.
  - simpl. tauto.
Qed.

(** A handler that did not touch a dependency of the effect: its update is
    the whole step. *)
Lemma commit_quiet w s :
  query s = query (ui w) →
  commit w (quiet s) =
  {| ui := s; requests := requests w; toasts := toasts w ++ [] |}.
Proof.
  intros E. unfold commit, depsChanged. simpl. rewrite E.
  by rewrite String.eqb_refl.
Qed.

(** ** Reachability *)

(** A run from a reachable world ends in a reachable world. *)
Lemma run_reachable es : ∀ w w', reachable w → run es w = Some w' → reachable w'.
Proof.
  induction es as [|e es IH]; simpl; intros w w' Hw Hrun.
  - by inversion Hrun; subst.
  - destruct (step e w) as [w1| | |] eqn:E; try done.
    + apply (IH w1); [|done]. by eapply reachable_step.
    + by apply (IH w).
Qed.

Lemma after_reachable es : reachable (after es).
Proof.
  unfold after. destruct (run es initialWorld) as [w|] eqn:E; simpl.
  - eapply run_reachable; [apply reachable_init | done].
  - apply reachable_init.
Qed.

(** ** The sample runs, evaluated *)

Example reselected_state :
  selectedCharacters (ui reselected) = [rick] ∧
  addedCharacters (ui reselected) = [rick].
Proof. by vm_compute. Qed.

Example shrunk_state :
  characters (ui shrunk) = [rick] ∧
  highlightedIndex (ui shrunk) = Num 1 ∧
  selectedCharacters (ui shrunk) = [morty] ∧
  query (ui shrunk) = "ri" ∧
  step (KeyDown "Enter") shrunk = Throws.
Proof. by vm_compute. Qed.

Example added_then_query_state :
  addedCharacters (ui added_then_query) = [rick] ∧
  selectedCharacters (ui added_then_query) = [] ∧
  pending added_then_query 1 =
    Some {| rq_query := "r"; rq_selected := []; rq_settled := false |}.
Proof. by vm_compute. Qed.

Example refining_state :
  characters (ui refining) = [rick; morty] ∧
  loading (ui refining) = true ∧
  pending refining 1 =
    Some {| rq_query := "ab"; rq_selected := []; rq_settled := false |}.
Proof. by vm_compute. Qed.

Example on_last_state :
  characters (ui on_last) = [rick; morty; summer] ∧
  highlightedIndex (ui on_last) = Num 2.
Proof. by vm_compute. Qed.

(** A [NaN] cursor, stored by ArrowDown on the empty list, outlives the
    next fetch: no row is highlighted, and Enter on the fetched list reads
    [undefined]. *)
Example nan_cursor_persists :
  let w := after [KeyDown "ArrowDown"; InputChange "a";
                  FetchResolve 0 [rick]] in
  characters (ui w) = [rick] ∧ highlightedIndex (ui w) = NaN ∧
  step (KeyDown "Enter") w = Crash.
Proof. by vm_compute. Qed.

(** A response that arrives after its query was superseded by a commit is
    still applied: the list it stores was filtered by the SelectedSet of its
    own closure and can hold a candidate that is selected by now. *)
Example stale_response_lists_a_selected_candidate :
  let w := after [InputChange "a"; InputChange "ab";
                  FetchResolve 0 [rick; morty]; Click 0;
                  FetchResolve 1 [rick]] in
  query (ui w) = "" ∧ characters (ui w) = [rick] ∧
  selectedCharacters (ui w) = [rick].
Proof. by vm_compute. Qed.

(** ** The Add action *)

Lemma step_ClickAdd w :
  step ClickAdd w = Next (commit w (handleAddCharacters (ui w))).
Proof. done. Qed.

Lemma handleAddCharacters_empty s :
  uniqueCharacters s = [] →
  handleAddCharacters s =
  {| next := s; selectedSet := false;
     toasted := [ToastError "Lütfen tekrar deneyiniz."] |}.
Proof. intros E. unfold handleAddCharacters. by rewrite E. Qed.

Lemma handleAddCharacters_moves s :
  uniqueCharacters s ≠ [] →
  handleAddCharacters s =
  {| next := setSelectedCharacters []
               (setAddedCharacters (addedCharacters s ++ uniqueCharacters s) s);
     selectedSet := true;
     toasted := [ToastSuccess "Başarıyla eklendi"] |}.
Proof.
  intros E. unfold handleAddCharacters.
  apply len_pos in E. by rewrite E.
Qed.

(** C2, as stated, fails: with Rick in both collections the Add action
    reports a failure and leaves Rick selected. *)
Lemma add_does_not_always_clear_selection :
  ¬ (∀ w w', reachable w → step ClickAdd w = Next w' →
       addedCharacters (ui w') =
         addedCharacters (ui w) ++ uniqueCharacters (ui w)
       ∧ selectedCharacters (ui w') = []).
Proof.
  intros H.
  destruct (H reselected _ (after_reachable _) eq_refl) as [_ E].
  vm_compute in E. discriminate E.
Qed.

(** C2, amended: the Add action always completes. When at least one selected
    candidate has an id that is not in AddedSet, those candidates are
    appended to AddedSet, SelectedSet is cleared and a success notice is
    raised. Otherwise (SelectedSet is empty, or all of it is already added)
    a failure notice is raised and the state is left as it was. *)
Theorem add_moves_new_or_reports_failure w :
  ∃ w', step ClickAdd w = Next w' ∧
    (∀ c, c ∈ uniqueCharacters (ui w) ↔
          c ∈ selectedCharacters (ui w) ∧ ¬ has_id (id c) (addedCharacters (ui w))) ∧
    match uniqueCharacters (ui w) with
    | [] =>
        ui w' = ui w ∧
        toasts w' = toasts w ++ [ToastError "Lütfen tekrar deneyiniz."]
    | moved =>
        addedCharacters (ui w') = addedCharacters (ui w) ++ moved ∧
        selectedCharacters (ui w') = [] ∧
        toasts w' = toasts w ++ [ToastSuccess "Başarıyla eklendi"]
    end ∧
    match selectedCharacters (ui w) with
    | [] => uniqueCharacters (ui w) = []
    | _ => True
    end.
Proof.
  eexists. split; [apply step_ClickAdd|].
  split; [apply elem_of_uniqueCharacters|]. split.
  - destruct (uniqueCharacters (ui w)) as [|c moved] eqn:E.
    + rewrite handleAddCharacters_empty by done.
      unfold commit, depsChanged. simpl. by rewrite String.eqb_refl.
    + pose proof (commit_fields w (handleAddCharacters (ui w))) as F.
      rewrite handleAddCharacters_moves in F |- * by (rewrite E; done).
      simpl in F. destruct F as (_ & _ & F1 & F2 & F3).
      by rewrite F1, F2, F3, E.
  - unfold uniqueCharacters. by destruct (selectedCharacters (ui w)).
Qed.

(** ** The order of AddedSet *)

(** C10: the Add action leaves the old AddedSet in front and appends the
    selected candidates whose id is not in it, in SelectedSet order; removing
    an id from AddedSet keeps the other entries in their order. *)
Theorem added_keeps_insertion_order w i :
  (∃ w', step ClickAdd w = Next w' ∧
     addedCharacters (ui w') =
       addedCharacters (ui w) ++
       filter (λ c, negb (some (same_id c) (addedCharacters (ui w))))
              (selectedCharacters (ui w))) ∧
  match step (ClickRemoveAdded i) w with
  | Next w' =>
      has_id i (addedCharacters (ui w)) ∧
      addedCharacters (ui w') =
        filter (λ c, negb (id c =? i)) (addedCharacters (ui w)) ∧
      addedCharacters (ui w') `sublist_of` addedCharacters (ui w) ∧
      (∀ c, c ∈ addedCharacters (ui w') ↔
            c ∈ addedCharacters (ui w) ∧ id c ≠ i)
  | NotEnabled => ¬ has_id i (addedCharacters (ui w))
  | Throws | Crash => False
  end.
Proof.
  split.
  - eexists. split; [apply step_ClickAdd|].
    pose proof (commit_fields w (handleAddCharacters (ui w))) as (_&_&_&F&_).
    rewrite F. unfold handleAddCharacters.
    fold (uniqueCharacters (ui w)).
    destruct (0 <? len (uniqueCharacters (ui w))) eqn:E; simpl; [done|].
    apply len_nil in E. rewrite E. by rewrite app_nil_r.
  - simpl. destruct (some _ (addedCharacters (ui w))) eqn:E.
    + pose proof (commit_fields w (handleRemoveCharacterList i (ui w)))
        as (_&_&_&F&_).
      rewrite F. simpl. split; [|split; [done|split]].
      * apply some_true in E as (c & Hc & E). apply Z.eqb_eq in E.
        apply list_elem_of_fmap. eauto.
      * apply sublist_filter.
      * intros c. apply elem_of_remove_id.
    + intros Hin. apply list_elem_of_fmap in Hin as (c & -> & Hc).
      rewrite some_false in E. specialize (E c Hc).
      apply Z.eqb_neq in E. done.
Qed.

(** ** Keyboard navigation *)

(** An arrow key changes the cursor and nothing else; the effect does not
    run. *)
Lemma step_ArrowDown w :
  step (KeyDown "ArrowDown") w =
  Next {| ui := setHighlightedIndex (arrowDown (ui w)) (ui w);
          requests := requests w; toasts := toasts w |}.
Proof.
  simpl. unfold handleKeyDown. simpl. rewrite commit_quiet by done.
  by rewrite app_nil_r.
Qed.

Lemma step_ArrowUp w :
  step (KeyDown "ArrowUp") w =
  Next {| ui := setHighlightedIndex (arrowUp (ui w)) (ui w);
          requests := requests w; toasts := toasts w |}.
Proof.
  simpl. unfold handleKeyDown. simpl. rewrite commit_quiet by done.
  by rewrite app_nil_r.
Qed.

Lemma arrowDown_inRange s i :
  highlightedIndex s = Num i → 0 ≤ i < len (characters s) →
  arrowDown s = Num (if i =? len (characters s) - 1 then 0 else i + 1).
Proof.
  intros E Hi. unfold arrowDown. rewrite E. simpl.
  destruct (Z.eqb_spec (len (characters s)) 0); [lia|].
  destruct (Z.eqb_spec i (len (characters s) - 1)) as [->|].
  - replace (len (characters s) - 1 + 1) with (len (characters s)) by lia.
    by rewrite Z.rem_same.
  - rewrite Z.rem_small by lia. done.
Qed.

Lemma arrowUp_number s i :
  highlightedIndex s = Num i →
  arrowUp s = Num (if i =? 0 then len (characters s) - 1 else i - 1).
Proof.
  intros E. unfold arrowUp. rewrite E. simpl.
  destruct (i =? 0); [done|]. f_equal. 
Qed.



(** C4: with an empty candidate list the arrow keys are not guarded (the
    Enter branch is, by [characters.length > 0]): ArrowDown takes the
    remainder by zero and stores [NaN], ArrowUp steps a numeric cursor below
    zero. Neither is a no-op. *)
Theorem arrows_on_empty_list_are_not_noops w z :
  characters (ui w) = [] →
  highlightedIndex (ui w) = Num z →
  (∃ w', step (KeyDown "ArrowDown") w = Next w' ∧
         highlightedIndex (ui w') = NaN ∧ ui w' ≠ ui w) ∧
  (∃ w', step (KeyDown "ArrowUp") w = Next w' ∧
         highlightedIndex (ui w') = Num (if z =? 0 then -1 else z - 1) ∧
         ui w' ≠ ui w).
Proof.
  intros Hnil Hz. split; eexists.
  - rewrite step_ArrowDown. split; [done|].
    assert (arrowDown (ui w) = NaN) as ->.
    { unfold arrowDown. by rewrite Hz, Hnil. }
    split; [done|]. intros E.
    apply (f_equal highlightedIndex) in E. simpl in E. congruence.
  - rewrite step_ArrowUp. split; [done|].
    rewrite (arrowUp_number _ z) by done. rewrite Hnil. simpl.
    split; [by destruct (z =? 0)|]. intros E.
    apply (f_equal highlightedIndex) in E. rewrite Hz in E.
    unfold len in E. simpl in E.
    destruct (Z.eqb_spec z 0); inversion E; lia.
Qed.

Lemma arrows_on_empty_list_are_not_noops_witness :
  characters (ui initialWorld) = [] ∧
  (∃ w', step (KeyDown "ArrowDown") initialWorld = Next w' ∧
         highlightedIndex (ui w') = NaN ∧ ui w' ≠ ui initialWorld) ∧
  (∃ w', step (KeyDown "ArrowUp") initialWorld = Next w' ∧
         highlightedIndex (ui w') = Num (-1) ∧ ui w' ≠ ui initialWorld).
Proof.
  split; [reflexivity|].
  apply (arrows_on_empty_list_are_not_noops initialWorld 0); reflexivity.
Defined.

(** ** The cursor over all events *)

Lemma handleSelectCharacter_highlight character s :
  highlightedIndex (next (handleSelectCharacter character s)) =
  highlightedIndex s.
Proof.
  unfold handleSelectCharacter.
  by destruct (find (same_id character) (selectedCharacters s)).
Qed.

Lemma commit_highlight w u :
  highlightedIndex (ui (commit w u)) = highlightedIndex (next u).
Proof. by destruct (commit_fields w u) as (_ & H & _). Qed.

Lemma step_keeps_highlight e w w' :
  movesHighlight e = false → step e w = Next w' →
  highlightedIndex (ui w') = highlightedIndex (ui w).
Proof.
  intros Hm Hstep. destruct e; simpl in *; try discriminate Hm.
  - inversion Hstep; subst. by rewrite commit_highlight.
  - apply orb_false_iff in Hm as [Hd Hu].
    unfold handleKeyDown in Hstep. rewrite Hd, Hu in Hstep.
    destruct (String.eqb key "Enter").
    + destruct (0 <? len (characters (ui w))).
      * destruct (js_index (characters (ui w)) (highlightedIndex (ui w))).
        -- inversion Hstep; subst. rewrite commit_highlight.
           apply handleSelectCharacter_highlight.
        -- by destruct (selectedCharacters (ui w)).
      * inversion Hstep; subst. by rewrite commit_highlight.
    + inversion Hstep; subst. by rewrite commit_highlight.
  - destruct (characters (ui w) !! index); [|done].
    destruct (resultsVisible (ui w)); [|done].
    inversion Hstep; subst. rewrite commit_highlight.
    apply handleSelectCharacter_highlight.
  - destruct (some _ _); [|done].
    inversion Hstep; subst. by rewrite commit_highlight.
  - destruct (some _ _); [|done].
    inversion Hstep; subst. by rewrite commit_highlight.
  - inversion Hstep; subst. rewrite commit_highlight.
    unfold handleAddCharacters. by destruct (0 <? _).
  - destruct (pending w n); [|done]. by inversion Hstep; subst.
  - destruct (pending w n); [|done]. by inversion Hstep; subst.
Qed.

Lemma step_MouseEnter w index w' :
  step (MouseEnter index) w = Next w' →
  is_Some (characters (ui w) !! index) ∧
  w' = {| ui := setHighlightedIndex (Num (Z.of_nat index)) (ui w);
          requests := requests w; toasts := toasts w |}.
Proof.
  simpl. destruct (characters (ui w) !! index) eqn:E; [|done].
  destruct (resultsVisible (ui w)); [|done].
  unfold handleMouseEnter. rewrite commit_quiet by done.
  rewrite app_nil_r. intros [= <-]. eauto.
Qed.

(** C3, as stated, fails: after a list of two was replaced by a list of
    one, the cursor still holds 1; and a fetch success does not reset it. *)
Lemma highlight_can_leave_the_list :
  ¬ (∀ w, reachable w → characters (ui w) ≠ [] → inRange (ui w)) ∧
  ¬ (∀ w n data w', reachable w → step (FetchResolve n data) w = Next w' →
       highlightedIndex (ui w') = Num 0).
Proof.
  split.
  - intros H.
    destruct (H shrunk (after_reachable _)) as (z & E & Hz).
    + vm_compute. discriminate.
    + vm_compute in E. injection E as <-.
      vm_compute in Hz. destruct Hz as [_ Hz]. discriminate Hz.
  - intros H.
    pose (w := after [InputChange "a"; FetchResolve 0 [rick; morty];
                      KeyDown "ArrowDown"; InputChange "ab"]).
    specialize (H w 1%nat [rick; morty] _ (after_reachable _) eq_refl).
    vm_compute in H. discriminate H.
Qed.

(** C3, amended: the cursor starts at 0 and is written only by ArrowDown,
    ArrowUp and the hovering of a result row, none of which changes the
    candidate list. Hovering sets it to the index of the hovered row, which
    is in the list; an arrow key pressed while the cursor lies in
    [[0, len)] leaves it in [[0, len)]. Every other event, a fetch success
    and a replacement of the list included, leaves the cursor as it is. *)
Theorem highlight_moves_only_by_navigation e w w' :
  step e w = Next w' →
  highlightedIndex initialState = Num 0 ∧
  if movesHighlight e then
    characters (ui w') = characters (ui w) ∧
    match e with
    | MouseEnter index =>
        highlightedIndex (ui w') = Num (Z.of_nat index) ∧ inRange (ui w')
    | _ => inRange (ui w) → inRange (ui w')
    end
  else highlightedIndex (ui w') = highlightedIndex (ui w).
Proof.
  intros Hstep. split; [done|].
  destruct (movesHighlight e) eqn:Hm;
    [|by apply (step_keeps_highlight e)].
  destruct e; simpl in Hm; try discriminate Hm.
  - apply orb_true_iff in Hm as [Hk|Hk]; apply String.eqb_eq in Hk; subst key.
    + rewrite step_ArrowDown in Hstep. injection Hstep as <-. simpl.
      split; [done|]. intros (z & E & Hz). unfold inRange. simpl.
      rewrite (arrowDown_inRange _ z) by done.
      eexists. split; [done|].
      destruct (Z.eqb_spec z (len (characters (ui w)) - 1)); lia.
    + rewrite step_ArrowUp in Hstep. injection Hstep as <-. simpl.
      split; [done|]. intros (z & E & Hz). unfold inRange. simpl.
      rewrite (arrowUp_number _ z) by done.
      eexists. split; [done|]. destruct (Z.eqb_spec z 0); lia.
  - apply step_MouseEnter in Hstep as [[c Hc] ->]. simpl.
    split; [done|]. split; [done|].
    exists (Z.of_nat index). split; [done|].
    apply lookup_lt_Some in Hc. unfold len. simpl. lia.
Qed.

Lemma highlight_moves_only_by_navigation_witness :
  step (FetchResolve 1 [rick]) refining =
    Next (after [InputChange "a"; FetchResolve 0 [rick; morty];
                 InputChange "ab"; FetchResolve 1 [rick]]) ∧
  highlightedIndex
    (ui (after [InputChange "a"; FetchResolve 0 [rick; morty];
                InputChange "ab"; FetchResolve 1 [rick]])) =
  highlightedIndex (ui refining).
Proof.
  split; [reflexivity|].
  apply (highlight_moves_only_by_navigation (FetchResolve 1 [rick]) refining).
  reflexivity.
Defined.

(** ** Committing a candidate *)

Lemma commit_cleared w u :
  query (next u) = "" → characters (next u) = [] →
  query (ui (commit w u)) = "" ∧ characters (ui (commit w u)) = [].
Proof.
  intros Hq Hc. unfold commit, useEffect, truthy.
  rewrite Hq. simpl. by destruct (depsChanged (ui w) u).
Qed.

Lemma handleSelectCharacter_committed w character :
  committed character w (commit w (handleSelectCharacter character (ui w))).
Proof.
  unfold committed.
  destruct (commit_fields w (handleSelectCharacter character (ui w)))
    as (_ & _ & Hs & Ha & _).
  rewrite Hs, Ha. unfold handleSelectCharacter.
  destruct (find (same_id character) (selectedCharacters (ui w))) eqn:E.
  - destruct (some _ _) eqn:E'; [|apply find_some in E'; congruence].
    destruct (commit_cleared w
      (quiet (setCharacters [] (setQuery "" (ui w))))); done.
  - apply find_some in E. rewrite E.
    match goal with |- context [commit w ?u] =>
      destruct (commit_cleared w u); done end.
Qed.

(** Enter has a candidate to commit exactly when the cursor lies in
    [[0, len)]. *)
Lemma target_ByEnter_inRange s :
  is_Some (target ByEnter s) ↔ inRange s.
Proof.
  unfold inRange. simpl. split.
  - intros [c Hc]. apply js_index_Some in Hc as (z & E & Hz & _). eauto.
  - intros (z & E & Hz).
    destruct (lookup_lt_is_Some_2 (characters s) (Z.to_nat z)) as [c Hc].
    { unfold len in Hz. lia. }
    exists c. apply js_index_Some. eauto.
Qed.




(** ** The shape of a step *)

Lemma step_shape e w w' : step e w = Next w' → stepShape w w'.
Proof.
  destruct e; simpl.
  - intros [= <-]. eapply shape_handler; [apply hu_input | done].
  - unfold handleKeyDown.
    repeat match goal with
    | |- context [if ?b then _ else _] => destruct b
    | |- context [match ?x with _ => _ end] => destruct x
    end; simpl; try discriminate; intros [= <-];
      eapply shape_handler; try done; constructor.
  - destruct (characters (ui w) !! index); [|done].
    destruct (resultsVisible (ui w)); [|done]. intros [= <-].
    eapply shape_handler; [apply hu_highlight | done].
  - destruct (characters (ui w) !! index); [|done].
    destruct (resultsVisible (ui w)); [|done]. intros [= <-].
    eapply shape_handler; [apply hu_select | done].
  - destruct (some _ _); [|done]. intros [= <-].
    eapply shape_handler; [apply hu_remove | done].
  - destruct (some _ _); [|done]. intros [= <-].
    eapply shape_handler; [apply hu_remove_list | done].
  - intros [= <-]. eapply shape_handler; [apply hu_add | done].
  - destruct (pending w n) eqn:E; [|done]. intros [= <-].
    by eapply shape_fulfilled.
  - destruct (pending w n) eqn:E; [|done]. intros [= <-].
    by eapply shape_rejected.
Qed.

(** ** The request issued last *)

(** A handler that did not call [setSelectedCharacters] left
    [selectedCharacters] as it was. *)
Lemma handlerUpdate_selectedSet s u :
  handlerUpdate s u → selectedSet u = false →
  selectedCharacters (next u) = selectedCharacters s.
Proof.
  destruct 1; simpl; try done.
  - unfold handleSelectCharacter.
    by destruct (find (same_id character) (selectedCharacters s)).
  - unfold handleAddCharacters. by destruct (0 <? _).
Qed.

Lemma latestCurrent_commit w u :
  handlerUpdate (ui w) u → latestCurrent w → latestCurrent (commit w u).
Proof.
  intros Hu Hw. unfold latestCurrent, commit.
  destruct (depsChanged (ui w) u) eqn:Hd.
  - unfold useEffect. destruct (truthy (query (next u))) eqn:Hq; simpl.
    + intros _. eexists. rewrite last_snoc. done.
    + intros Hq'. congruence.
  - simpl. unfold depsChanged in Hd.
    apply orb_false_iff in Hd as [Hs Hq].
    apply negb_false_iff, String.eqb_eq in Hq.
    rewrite <- Hq, (handlerUpdate_selectedSet _ _ Hu Hs). apply Hw.
Qed.

Lemma pending_lookup w n r :
  pending w n = Some r → requests w !! n = Some r ∧ rq_settled r = false.
Proof.
  unfold pending. destruct (requests w !! n) as [r'|]; [|done].
  destruct (rq_settled r') eqn:E; [done|]. by intros [= <-].
Qed.

Lemma last_settle (reqs : list Request) n r :
  reqs !! n = Some r →
  last (<[n := settle r]> reqs) =
  (if decide (S n = length reqs) then Some (settle r) else last reqs).
Proof.
  intros Hn. pose proof (lookup_lt_Some _ _ _ Hn) as Hlt.
  rewrite !last_lookup, length_insert, list_lookup_insert.
  repeat case_decide; try done; lia.
Qed.

Lemma latestCurrent_settle w n r s' :
  pending w n = Some r →
  query s' = query (ui w) →
  selectedCharacters s' = selectedCharacters (ui w) →
  latestCurrent w →
  latestCurrent {| ui := s'; requests := <[n := settle r]> (requests w);
                   toasts := toasts w |}.
Proof.
  intros Hp Hq Hs Hw. apply pending_lookup in Hp as [Hn _].
  unfold latestCurrent. simpl. rewrite Hq, Hs. intros Ht.
  destruct (Hw Ht) as (r0 & Hlast & H1 & H2).
  rewrite (last_settle _ _ _ Hn). case_decide as Hd; [|eauto].
  exists (settle r). split; [done|].
  rewrite last_lookup in Hlast.
  replace (pred (length (requests w))) with n in Hlast by lia.
  assert (r0 = r) as -> by congruence. done.
Qed.

Lemma reachable_latestCurrent w : reachable w → latestCurrent w.
Proof.
  induction 1 as [|e w w' Hw IH Hstep].
  - intros Ht. discriminate Ht.
  - destruct (step_shape _ _ _ Hstep) as [u Hu ->|n r data Hp ->|n r Hp ->].
    + by apply latestCurrent_commit.
    + by apply latestCurrent_settle.
    + by apply latestCurrent_settle.
Qed.

(** ** A fetch that succeeds *)




(** ** A fetch that fails *)

(** C5, as stated, fails: the list shown before the failed fetch is still
    in the state after it. *)
Lemma fetch_failure_keeps_the_list :
  ¬ (∀ w n w', reachable w → step (FetchReject n) w = Next w' →
       is_Some (error (ui w')) ∧ characters (ui w') = []).
Proof.
  intros H.
  destruct (H refining 1%nat _ (after_reachable _) eq_refl) as [_ E].
  vm_compute in E. discriminate E.
Qed.

(** C5, amended: a pending fetch that fails puts the error message in the
    state and ends loading; the results list is no longer rendered. The
    candidate list in the state is left as it was, and so are the query, the
    cursor, SelectedSet and AddedSet. *)
Theorem fetch_failure_holds_error w n r :
  pending w n = Some r →
  ∃ w', step (FetchReject n) w = Next w' ∧
    error (ui w') = Some "Error fetching characters" ∧
    loading (ui w') = false ∧
    resultsVisible (ui w') = false ∧
    characters (ui w') = characters (ui w) ∧
    query (ui w') = query (ui w) ∧
    highlightedIndex (ui w') = highlightedIndex (ui w) ∧
    selectedCharacters (ui w') = selectedCharacters (ui w) ∧
    addedCharacters (ui w') = addedCharacters (ui w).
Proof.
  intros Hp. eexists. simpl. rewrite Hp. split; [done|]. simpl.
  repeat split; try done.
Qed.

Lemma fetch_failure_holds_error_witness :
  ∃ w', step (FetchReject 1) refining = Next w' ∧
    error (ui w') = Some "Error fetching characters" ∧
    characters (ui w') = [rick; morty].
Proof.
  destruct (fetch_failure_holds_error refining 1
    {| rq_query := "ab"; rq_selected := []; rq_settled := false |} eq_refl)
    as (w' & Hstep & Herr & _ & _ & Hchars & _).
  exists w'. split; [exact Hstep|]. split; [exact Herr | exact Hchars].
Defined.

(** ** Uniqueness by id *)

Lemma uniqueIds_snoc l c :
  uniqueIds l → ¬ has_id (id c) l → uniqueIds (l ++ [c]).
Proof.
  unfold uniqueIds, has_id. intros Hl Hc.
  rewrite fmap_app. apply NoDup_app. split; [done|]. split.
  - intros x Hx Hx'. apply list_elem_of_singleton in Hx'. by subst.
  - apply NoDup_singleton.
Qed.

Lemma uniqueIds_add s :
  uniqueIds (selectedCharacters s) → uniqueIds (addedCharacters s) →
  uniqueIds (addedCharacters s ++ uniqueCharacters s).
Proof.
  unfold uniqueIds. intros Hs Ha.
  rewrite fmap_app. apply NoDup_app. split; [done|]. split.
  - intros x Hx Hx'.
    apply list_elem_of_fmap in Hx' as (c & -> & Hc).
    apply elem_of_uniqueCharacters in Hc as [_ Hc]. by apply Hc.
  - by apply NoDup_ids_filter.
Qed.

Lemma handlerUpdate_uniqueIds s u :
  handlerUpdate s u →
  uniqueIds (selectedCharacters s) ∧ uniqueIds (addedCharacters s) →
  uniqueIds (selectedCharacters (next u)) ∧
  uniqueIds (addedCharacters (next u)).
Proof.
  intros Hu [Hs Ha]. destruct Hu; simpl; try done.
  - unfold handleSelectCharacter.
    destruct (find (same_id character) (selectedCharacters s)) eqn:E;
      simpl; [done|]. split; [|done].
    apply uniqueIds_snoc; [done|].
    apply find_some in E. intros Hin. apply some_same_id in Hin. congruence.
  - split; [|done]. by apply NoDup_ids_filter.
  - split; [done|]. by apply NoDup_ids_filter.
  - unfold handleAddCharacters. destruct (0 <? _); simpl; [|done].
    split; [apply NoDup_nil_2 | by apply uniqueIds_add].
Qed.

(** C7, as stated, fails: a candidate that was added is fetched again (the
    fetch filters by SelectedSet only) and selected again; its id is then in
    both collections. *)
Lemma selected_and_added_can_share_an_id :
  ¬ (∀ w, reachable w →
       ∀ i, ¬ (has_id i (selectedCharacters (ui w)) ∧
               has_id i (addedCharacters (ui w)))).
Proof.
  intros H. apply (H reselected (after_reachable _) 1).
  split; vm_compute; apply list_elem_of_here.
Qed.

(** C7, amended: in every reachable state no id occurs twice in SelectedSet
    and no id occurs twice in AddedSet. The two collections are not kept
    disjoint: a candidate that was added can be fetched and selected again;
    the Add action then passes over it. *)
Theorem selected_and_added_have_unique_ids w :
  reachable w →
  uniqueIds (selectedCharacters (ui w)) ∧
  uniqueIds (addedCharacters (ui w)) ∧
  ∀ c, c ∈ uniqueCharacters (ui w) → ¬ has_id (id c) (addedCharacters (ui w)).
Proof.
  intros Hw.
  assert (uniqueIds (selectedCharacters (ui w)) ∧
          uniqueIds (addedCharacters (ui w))) as [Hs Ha].
  { induction Hw as [|e w w' Hw IH Hstep].
    - split; apply NoDup_nil_2.
    - destruct (step_shape _ _ _ Hstep) as [u Hu ->|n r data Hp ->|n r Hp ->];
        [|done..].
      destruct (commit_fields w u) as (_ & _ & -> & -> & _).
      by apply (handlerUpdate_uniqueIds (ui w)). }
  split; [done|]. split; [done|].
  intros c Hc. by apply elem_of_uniqueCharacters in Hc as [_ Hc].
Qed.

Lemma selected_and_added_have_unique_ids_witness :
  uniqueIds (selectedCharacters (ui reselected)) ∧
  uniqueIds (addedCharacters (ui reselected)) ∧
  ∀ c, c ∈ uniqueCharacters (ui reselected) →
       ¬ has_id (id c) (addedCharacters (ui reselected)).
Proof.
  apply (selected_and_added_have_unique_ids reselected).
  apply after_reachable.
Defined.

(** ** The query fetcher *)

Lemma getProperty_null_iff data key :
  getProperty data key = ReadThrows ↔ data = JNull.
Proof.
  destruct data; simpl; try done.
  destruct (member key members); done.
Qed.

(** The sample directory: the fetcher returns the array under [results]. *)
Example fetchCharacters_answersRick :
  fetchCharacters answersRick "rick" =
  Fulfilled (JArr [JObj [("id", JNum 1); ("name", JStr "Rick Sanchez")]]).
Proof. reflexivity. Qed.

(** The directory answers an unknown name with an error object and no
    [results]: the fetcher returns the empty array. *)
Example fetchCharacters_not_found :
  fetchCharacters
    (λ _, Some {| body := Some (JObj [("error", JStr "There is nothing here")]) |})
    "zzz" = Fulfilled (JArr []).
Proof. reflexivity. Qed.

(** C9, as stated, fails: a response whose body parses to [null] is a
    request and a parse that succeeded, yet reading [results] of [null]
    throws and the fetcher rejects. *)
Lemma fetcher_rejects_a_null_body :
  ¬ (∀ fetch query, query ≠ "" →
       ((∃ v, fetchCharacters fetch query = Fulfilled v) ↔
        (∃ response data,
           fetch (endpoint query) = Some response ∧
           body response = Some data))).
Proof.
  intros H.
  destruct (H answersNull "rick" ltac:(done)) as [_ H'].
  destruct H' as [v Hv].
  - by exists {| body := Some JNull |}, JNull.
  - discriminate Hv.
Qed.

(** C9, amended: for every query string the two fetchers agree. The fetcher
    rejects when the request fails and when the body does not parse; it
    returns normally if and only if the request and the parse succeed and
    the parsed body is not [null] (reading [results] of [null] throws, and
    that error is propagated too). When it returns, it returns the [results]
    member if that is an array (or another truthy value), and the empty
    array when [results] is absent (or falsy). *)
Theorem fetcher_contract fetch query :
  fetchDataHelper fetch query = fetchCharacters fetch query ∧
  ((∃ v, fetchCharacters fetch query = Fulfilled v) ↔
   (∃ response data,
      fetch (endpoint query) = Some response ∧
      body response = Some data ∧ data ≠ JNull)) ∧
  (fetch (endpoint query) = None →
     fetchCharacters fetch query = Rejected NetworkError) ∧
  (∀ response, fetch (endpoint query) = Some response →
     body response = None →
     fetchCharacters fetch query = Rejected SyntaxError) ∧
  (∀ response data, fetch (endpoint query) = Some response →
     body response = Some data →
     (∀ items, getProperty data "results" = Value (JArr items) →
        fetchCharacters fetch query = Fulfilled (JArr items)) ∧
     (getProperty data "results" = Undefined →
        fetchCharacters fetch query = Fulfilled (JArr [])) ∧
     (∀ v, getProperty data "results" = Value v →
        fetchCharacters fetch query =
        Fulfilled (if json_truthy v then v else JArr []))).
Proof.
  split; [done|]. unfold fetchCharacters. split; [split|].
  - intros [v Hv].
    destruct (fetch (endpoint query)) as [response|]; [|done].
    destruct (body response) as [data|] eqn:Hb; [|done].
    exists response, data. repeat split; try done.
    intros ->. done.
  - intros (response & data & -> & -> & Hnull).
    destruct (getProperty data "results") eqn:E; eauto.
    by apply getProperty_null_iff in E.
  - split; [by intros ->|]. split.
    + by intros response -> ->.
    + intros response data -> ->. repeat split.
      * by intros items ->.
      * by intros ->.
      * by intros v ->.
Qed.


(** * Further properties of the component *)

(** ** Typing and the effect *)

Lemma world_eta w :
  {| ui := ui w; requests := requests w; toasts := toasts w |} = w.
Proof. by destruct w. Qed.

Lemma state_eta s :
  {| query := query s; characters := characters s; loading := loading s;
     highlightedIndex := highlightedIndex s;
     selectedCharacters := selectedCharacters s;
     addedCharacters := addedCharacters s; error := error s |} = s.
Proof. by destruct s. Qed.

(** The requests after a handler's update: the effect issues one request
    when a dependency changed and the query is not empty, and none
    otherwise. *)
Lemma commit_requests w u :
  requests (commit w u) =
  if depsChanged (ui w) u && truthy (query (next u))
  then requests w ++ [issued (next u)]
  else requests w.
Proof.
  unfold commit, useEffect.
  destruct (depsChanged (ui w) u); [|done].
  by destruct (truthy (query (next u))).
Qed.

(** The loading flag and the error after a handler's update. *)
Lemma commit_loading_error w u :
  loading (next u) = loading (ui w) → error (next u) = error (ui w) →
  if depsChanged (ui w) u && truthy (query (next u))
  then loading (ui (commit w u)) = true ∧ error (ui (commit w u)) = None
  else loading (ui (commit w u)) = loading (ui w) ∧
       error (ui (commit w u)) = error (ui w).
Proof.
  intros Hl He. unfold commit, useEffect.
  destruct (depsChanged (ui w) u); [|done].
  by destruct (truthy (query (next u))).
Qed.

(** No handler writes the loading flag or the error. *)
Lemma handlerUpdate_loading_error s u :
  handlerUpdate s u → loading (next u) = loading s ∧ error (next u) = error s.
Proof.
  destruct 1; simpl; try done.
  - unfold handleSelectCharacter.
    by destruct (find (same_id character) (selectedCharacters s)).
  - unfold handleAddCharacters. by destruct (0 <? _).
Qed.

(** X1: typing the empty text never issues a request. It empties the query;
    the candidate list is cleared when the query was not empty before, and is
    left as it was when the query already was empty (the effect does not
    run). *)
Theorem empty_text_issues_no_request w :
  ∃ w', step (InputChange "") w = Next w' ∧
    requests w' = requests w ∧
    query (ui w') = "" ∧
    characters (ui w') =
      (if truthy (query (ui w)) then [] else characters (ui w)) ∧
    loading (ui w') = loading (ui w) ∧
    error (ui w') = error (ui w).
Proof.
  eexists. split; [done|].
  unfold commit, depsChanged, useEffect, truthy, handleInputChange. simpl.
  by destruct (String.eqb (query (ui w)) "").
Qed.

(** X2: in every reachable state, every request that was ever issued was
    issued for a non-empty query: the fetcher is never called with the empty
    string. *)
Theorem requests_have_nonempty_queries w r :
  reachable w → r ∈ requests w → rq_query r ≠ "".
Proof.
  intros Hw. revert r.
  assert (Forall (λ r, truthy (rq_query r) = true) (requests w)) as H.
  { induction Hw as [|e w w' Hw IH Hstep]; [by apply Forall_nil|].
    destruct (step_shape _ _ _ Hstep) as [u Hu ->|n r data Hp ->|n r Hp ->].
    - rewrite commit_requests.
      destruct (depsChanged (ui w) u); simpl; [|done].
      destruct (truthy (query (next u))) eqn:Hq; [|done].
      apply Forall_app. split; [done|]. by apply Forall_singleton.
    - simpl. apply Forall_insert; [done|].
      apply pending_lookup in Hp as [Hr _].
      by apply (Forall_lookup_1 _ _ _ _ IH Hr).
    - simpl. apply Forall_insert; [done|].
      apply pending_lookup in Hp as [Hr _].
      by apply (Forall_lookup_1 _ _ _ _ IH Hr). }
  intros r Hr. rewrite Forall_forall in H. specialize (H r Hr).
  unfold truthy in H. apply negb_true_iff, String.eqb_neq in H. done.
Qed.

Lemma requests_have_nonempty_queries_witness :
  rq_query {| rq_query := "ab"; rq_selected := []; rq_settled := false |} ≠ "".
Proof.
  apply (requests_have_nonempty_queries refining).
  - apply after_reachable.
  - vm_compute. apply list_elem_of_further, list_elem_of_here.
Defined.



(** X4: typing the text that is already the query changes nothing: no
    request is issued and the state is kept. *)
Theorem typing_same_text_is_noop w :
  step (InputChange (query (ui w))) w = Next w.
Proof.
  simpl. unfold handleInputChange. rewrite commit_quiet by done.
  rewrite app_nil_r. f_equal. destruct w as [s reqs ts]. simpl.
  f_equal. apply state_eta.
Qed.

(** X5: in every reachable state with a non-empty query, the request issued
    last was issued for exactly the current query text and closed over the
    current SelectedSet. *)
Theorem latest_request_is_current w :
  reachable w → query (ui w) ≠ "" →
  ∃ r, last (requests w) = Some r ∧
       rq_query r = query (ui w) ∧
       rq_selected r = selectedCharacters (ui w).
Proof.
  intros Hw Hq. apply (reachable_latestCurrent w Hw).
  unfold truthy. by apply negb_true_iff, String.eqb_neq.
Qed.

Lemma latest_request_is_current_witness :
  ∃ r, last (requests two_selected) = Some r ∧
       rq_query r = "m" ∧ rq_selected r = [summer; rick].
Proof.
  apply (latest_request_is_current two_selected).
  - apply after_reachable.
  - vm_compute. discriminate.
Defined.

(** ** Removing an entry *)

(** With unique ids, removing a present id removes exactly one entry. *)
Lemma remove_id_length (l : list Character) i :
  uniqueIds l → has_id i l →
  length l = S (length (filter (λ c, negb (id c =? i)) l)).
Proof.
  unfold uniqueIds, has_id. induction l as [|c l IH]; simpl.
  - intros _ Hin. by apply elem_of_nil in Hin.
  - rewrite NoDup_cons. intros [Hc Hl] Hin. rewrite filter_cons.
    destruct (Z.eqb_spec (id c) i) as [E|E]; simpl.
    + f_equal. clear IH Hin. subst i.
      induction l as [|c' l IH]; [done|].
      rewrite fmap_cons, not_elem_of_cons in Hc. destruct Hc as [Hne Hc].
      rewrite fmap_cons, NoDup_cons in Hl. destruct Hl as [_ Hl].
      rewrite filter_cons.
      destruct (Z.eqb_spec (id c') (id c)) as [E|E]; simpl; [congruence|].
      f_equal. by apply IH.
    + f_equal. apply IH; [done|].
      apply elem_of_cons in Hin as [Hin|Hin]; [congruence | done].
Qed.

Lemma remove_id_gone (l : list Character) i :
  ¬ has_id i (filter (λ c, negb (id c =? i)) l).
Proof.
  unfold has_id. intros Hin.
  apply list_elem_of_fmap in Hin as (c & -> & Hc).
  apply elem_of_remove_id in Hc as [_ Hc]. done.
Qed.

Lemma has_id_some i (l : list Character) :
  has_id i l → some (λ c, id c =? i) l = true.
Proof.
  unfold has_id. intros Hin.
  apply list_elem_of_fmap in Hin as (c & -> & Hc).
  apply some_true. exists c. split; [done|]. apply Z.eqb_refl.
Qed.

Lemma reachable_uniqueIds w :
  reachable w →
  uniqueIds (selectedCharacters (ui w)) ∧ uniqueIds (addedCharacters (ui w)).
Proof.
  induction 1 as [|e w w' Hw IH Hstep].
  - split; apply NoDup_nil_2.
  - destruct (step_shape _ _ _ Hstep) as [u Hu ->|n r data Hp ->|n r Hp ->];
      [|done..].
    destruct (commit_fields w u) as (_ & _ & -> & -> & _).
    by apply (handlerUpdate_uniqueIds (ui w)).
Qed.

(** X6: in a reachable state, the remove button of a selected tag removes
    exactly one entry of SelectedSet, the one with that id, and keeps the
    others in their order. AddedSet, the candidate list, the cursor and the
    query are untouched, no toast is raised, and when the query is not empty
    the list is fetched again, for the same query and the reduced
    SelectedSet. *)
Theorem remove_tag_removes_one_and_refetches w i :
  reachable w →
  has_id i (selectedCharacters (ui w)) →
  ∃ w', step (ClickRemoveTag i) w = Next w' ∧
    ¬ has_id i (selectedCharacters (ui w')) ∧
    selectedCharacters (ui w') `sublist_of` selectedCharacters (ui w) ∧
    length (selectedCharacters (ui w)) =
      S (length (selectedCharacters (ui w'))) ∧
    (∀ c, c ∈ selectedCharacters (ui w') ↔
          c ∈ selectedCharacters (ui w) ∧ id c ≠ i) ∧
    addedCharacters (ui w') = addedCharacters (ui w) ∧
    characters (ui w') =
      (if truthy (query (ui w)) then characters (ui w) else []) ∧
    highlightedIndex (ui w') = highlightedIndex (ui w) ∧
    query (ui w') = query (ui w) ∧
    toasts w' = toasts w ∧
    requests w' =
      (if truthy (query (ui w))
       then requests w ++
            [ {| rq_query := query (ui w);
                 rq_selected := selectedCharacters (ui w');
                 rq_settled := false |} ]
       else requests w).
Proof.
  intros Hw Hin. destruct (reachable_uniqueIds w Hw) as [Hs _].
  eexists. simpl. rewrite (has_id_some _ _ Hin). split; [done|].
  pose proof (commit_requests w (handleRemoveCharacter i (ui w))) as Hreq.
  unfold commit, useEffect, depsChanged, issued in *. simpl in *.
  destruct (truthy (query (ui w))); simpl in *;
    rewrite ?app_nil_r;
    (split; [apply remove_id_gone|]);
    (split; [apply sublist_filter|]);
    (split; [by apply remove_id_length|]);
    (split; [intros c; apply elem_of_remove_id|]); done.
Qed.

Lemma remove_tag_removes_one_and_refetches_witness :
  ∃ w', step (ClickRemoveTag 3) two_selected = Next w' ∧
    selectedCharacters (ui w') = [rick] ∧
    last (requests w') =
      Some {| rq_query := "m"; rq_selected := [rick]; rq_settled := false |}.
Proof.
  destruct (remove_tag_removes_one_and_refetches two_selected 3)
    as (w' & Hstep & _).
  - apply after_reachable.
  - vm_compute. apply list_elem_of_here.
  - exists w'. split; [exact Hstep|].
    vm_compute in Hstep. injection Hstep as <-. by vm_compute.
Defined.

(** X7: in a reachable state, the remove button of an added entry removes
    exactly one entry of AddedSet, the one with that id, and raises the
    success toast. SelectedSet, the candidate list, the cursor, the query,
    the loading flag and the error are untouched and no request is
    issued. *)
Theorem remove_added_removes_one w i :
  reachable w →
  has_id i (addedCharacters (ui w)) →
  ∃ w', step (ClickRemoveAdded i) w = Next w' ∧
    ¬ has_id i (addedCharacters (ui w')) ∧
    length (addedCharacters (ui w)) = S (length (addedCharacters (ui w'))) ∧
    ui w' = setAddedCharacters (addedCharacters (ui w')) (ui w) ∧
    requests w' = requests w ∧
    toasts w' = toasts w ++ [ToastSuccess "Başarıyla kaldırıldı"].
Proof.
  intros Hw Hin. destruct (reachable_uniqueIds w Hw) as [_ Ha].
  eexists. simpl. rewrite (has_id_some _ _ Hin). split; [done|].
  unfold commit, depsChanged. simpl. rewrite String.eqb_refl. simpl.
  split; [apply remove_id_gone|]. split; [by apply remove_id_length|]. done.
Qed.

Lemma remove_added_removes_one_witness :
  ∃ w', step (ClickRemoveAdded 1) reselected = Next w' ∧
    addedCharacters (ui w') = [] ∧
    selectedCharacters (ui w') = [rick].
Proof.
  destruct (remove_added_removes_one reselected 1)
    as (w' & Hstep & _).
  - apply after_reachable.
  - vm_compute. apply list_elem_of_here.
  - exists w'. split; [exact Hstep|].
    vm_compute in Hstep. injection Hstep as <-. by vm_compute.
Defined.

(** ** The loading flag and the error *)

(** X8: in every reachable state in which the loading indicator is shown,
    the request issued last is still pending. *)
Theorem loading_means_latest_request_pending w :
  reachable w → loading (ui w) = true →
  ∃ r, last (requests w) = Some r ∧ rq_settled r = false.
Proof.
  induction 1 as [|e w w' Hw IH Hstep]; [discriminate|].
  destruct (step_shape _ _ _ Hstep) as [u Hu ->|n r data Hp ->|n r Hp ->];
    [|discriminate..].
  destruct (handlerUpdate_loading_error _ _ Hu) as [Hl He].
  pose proof (commit_loading_error w u Hl He) as H.
  rewrite commit_requests.
  destruct (depsChanged (ui w) u && truthy (query (next u))).
  - intros _. eexists. by rewrite last_snoc.
  - destruct H as [-> _]. done.
Qed.

Lemma loading_means_latest_request_pending_witness :
  ∃ r, last (requests refining) = Some r ∧ rq_settled r = false.
Proof.
  apply (loading_means_latest_request_pending refining).
  - apply after_reachable.
  - reflexivity.
Defined.

(** X9: in every reachable state, the loading indicator and the error
    message are never shown together: while loading, no error is held. *)
Theorem loading_excludes_error w :
  reachable w → loading (ui w) = true → error (ui w) = None.
Proof.
  induction 1 as [|e w w' Hw IH Hstep]; [done|].
  destruct (step_shape _ _ _ Hstep) as [u Hu ->|n r data Hp ->|n r Hp ->];
    [|discriminate..].
  destruct (handlerUpdate_loading_error _ _ Hu) as [Hl He].
  pose proof (commit_loading_error w u Hl He) as H.
  destruct (depsChanged (ui w) u && truthy (query (next u))).
  - by destruct H as [_ ->].
  - destruct H as [-> ->]. done.
Qed.

Lemma loading_excludes_error_witness :
  error (ui refining) = None.
Proof.
  apply (loading_excludes_error refining).
  - apply after_reachable.
  - reflexivity.
Defined.

(** X10: a response of an earlier request ends the loading indicator and
    keeps a held error: a fetch success never clears the error message, so
    the list it stores stays hidden until the next request is issued. *)
Theorem fetch_success_keeps_error w n r data message :
  pending w n = Some r → error (ui w) = Some message →
  ∃ w', step (FetchResolve n data) w = Next w' ∧
    error (ui w') = Some message ∧
    loading (ui w') = false ∧
    characters (ui w') = filteredData (rq_selected r) data ∧
    resultsVisible (ui w') = false.
Proof.
  intros Hp He. eexists. simpl. rewrite Hp. split; [done|]. simpl.
  unfold resultsVisible. simpl. rewrite He. done.
Qed.

Lemma fetch_success_keeps_error_witness :
  ∃ w', step (FetchResolve 1 [rick]) failed_while_refining = Next w' ∧
    error (ui w') = Some "Error fetching characters" ∧
    characters (ui w') = [rick] ∧
    resultsVisible (ui w') = false.
Proof.
  destruct (fetch_success_keeps_error failed_while_refining 1
    {| rq_query := "ab"; rq_selected := []; rq_settled := false |}
    [rick] "Error fetching characters" eq_refl eq_refl)
    as (w' & Hstep & He & _ & Hc & Hv).
  exists w'. repeat split; assumption.
Defined.

(** ** More on the keyboard and the mouse *)

Lemma step_ArrowDown_withCursor w :
  step (KeyDown "ArrowDown") w = Next (withCursor (arrowDown (ui w)) w).
Proof. apply step_ArrowDown. Qed.

Lemma step_ArrowUp_withCursor w :
  step (KeyDown "ArrowUp") w = Next (withCursor (arrowUp (ui w)) w).
Proof. apply step_ArrowUp. Qed.

Lemma withCursor_same w :
  withCursor (highlightedIndex (ui w)) w = w.
Proof.
  unfold withCursor, setHighlightedIndex. by rewrite state_eta, world_eta.
Qed.

Lemma withCursor_withCursor n m w :
  withCursor n (withCursor m w) = withCursor n w.
Proof. done. Qed.

Lemma arrowDown_withCursor i w :
  0 ≤ i < len (characters (ui w)) →
  arrowDown (ui (withCursor (Num i) w)) =
  Num ((i + 1) `mod` len (characters (ui w))).
Proof.
  intros Hi. rewrite (arrowDown_inRange _ i) by done. simpl. f_equal.
  destruct (Z.eqb_spec i (len (characters (ui w)) - 1)) as [->|].
  - replace (len (characters (ui w)) - 1 + 1)
      with (len (characters (ui w))) by lia.
    by rewrite Z_mod_same_full.
  - by rewrite Z.mod_small by lia.
Qed.

(** After [k] presses of ArrowDown from position [i] the cursor is at
    [(i + k) mod len]. *)
Lemma run_ArrowDown k : ∀ w i,
  0 ≤ i < len (characters (ui w)) →
  run (replicate k (KeyDown "ArrowDown")) (withCursor (Num i) w) =
  Some (withCursor (Num ((i + Z.of_nat k) `mod` len (characters (ui w)))) w).
Proof.
  induction k as [|k IH]; intros w i Hi.
  - simpl. rewrite Z.add_0_r, Z.mod_small by lia. done.
  - rewrite replicate_S. cbn [run].
    rewrite step_ArrowDown_withCursor, arrowDown_withCursor by done.
    rewrite withCursor_withCursor, IH by (apply Z.mod_pos_bound; lia).
    do 2 f_equal. f_equal.
    rewrite Zplus_mod_idemp_l. f_equal. lia.
Qed.

(** Enter with a candidate under the cursor commits it. *)
Lemma enter_commits_target w character :
  characters (ui w) ≠ [] →
  target ByEnter (ui w) = Some character →
  step (KeyDown "Enter") w =
    Next (commit w (handleSelectCharacter character (ui w))) ∧
  committed character w (commit w (handleSelectCharacter character (ui w))).
Proof.
  intros Hne Ht. split; [|apply handleSelectCharacter_committed].
  simpl in *. unfold handleKeyDown. simpl.
  apply len_pos in Hne. by rewrite Hne, Ht.
Qed.

(** X11: Enter on an empty candidate list, and every key other than
    ArrowDown, ArrowUp and Enter, changes nothing. *)
Theorem other_keys_are_noops w key :
  key ≠ "ArrowDown" → key ≠ "ArrowUp" →
  (key = "Enter" → characters (ui w) = []) →
  step (KeyDown key) w = Next w.
Proof.
  intros Hd Hu He. simpl. unfold handleKeyDown.
  apply String.eqb_neq in Hd, Hu. rewrite Hd, Hu.
  assert (commit w (quiet (ui w)) = w) as Hsame.
  { rewrite commit_quiet by done. rewrite app_nil_r. apply world_eta. }
  destruct (String.eqb_spec key "Enter") as [E|E]; simpl;
    [rewrite (He E); simpl|]; by rewrite Hsame.
Qed.

Lemma other_keys_are_noops_witness :
  step (KeyDown "Enter") added_then_query = Next added_then_query ∧
  step (KeyDown "Escape") on_last = Next on_last.
Proof.
  split.
  - apply (other_keys_are_noops added_then_query "Enter");
      [discriminate | discriminate | reflexivity].
  - apply (other_keys_are_noops on_last "Escape");
      [discriminate | discriminate | discriminate].
Defined.

(** X12: with the cursor on a candidate, ArrowDown followed by ArrowUp, and
    ArrowUp followed by ArrowDown, lead back to the same state. *)
Theorem arrows_undo_each_other w :
  inRange (ui w) →
  run [KeyDown "ArrowDown"; KeyDown "ArrowUp"] w = Some w ∧
  run [KeyDown "ArrowUp"; KeyDown "ArrowDown"] w = Some w.
Proof.
  intros (i & Hi & Hr).
  pose proof (withCursor_same w) as Hw. rewrite Hi in Hw.
  split; cbn [run].
  - rewrite step_ArrowDown_withCursor, step_ArrowUp_withCursor.
    rewrite withCursor_withCursor, (arrowDown_inRange _ i) by done.
    erewrite arrowUp_number by reflexivity. simpl. f_equal.
    transitivity (withCursor (Num i) w); [|exact Hw]. do 2 f_equal.
    destruct (Z.eqb_spec i (len (characters (ui w)) - 1)); [simpl; lia|].
    destruct (Z.eqb_spec (i + 1) 0); lia.
  - rewrite step_ArrowUp_withCursor, step_ArrowDown_withCursor.
    rewrite withCursor_withCursor, (arrowUp_number _ i) by done. f_equal.
    transitivity (withCursor (Num i) w); [|exact Hw]. f_equal.
    destruct (Z.eqb_spec i 0) as [->|].
    + erewrite arrowDown_inRange; [|reflexivity | simpl; lia].
      simpl. by rewrite Z.eqb_refl.
    + erewrite arrowDown_inRange; [|reflexivity | simpl; lia].
      simpl. f_equal.
      destruct (Z.eqb_spec (i - 1) (len (characters (ui w)) - 1)); lia.
Qed.

Lemma arrows_undo_each_other_witness :
  run [KeyDown "ArrowDown"; KeyDown "ArrowUp"] on_last = Some on_last ∧
  run [KeyDown "ArrowUp"; KeyDown "ArrowDown"] on_last = Some on_last.
Proof.
  apply (arrows_undo_each_other on_last).
  exists 2. split; [reflexivity|]. vm_compute. split; [discriminate | reflexivity].
Defined.

(** X13: with the cursor on a candidate of a list of [len] candidates,
    [len] presses of ArrowDown lead back to the same state, and [k] presses
    move the cursor from [i] to [(i + k) mod len]. *)
Theorem arrow_down_cycles w i k :
  highlightedIndex (ui w) = Num i →
  0 ≤ i < len (characters (ui w)) →
  run (replicate k (KeyDown "ArrowDown")) w =
    Some (withCursor (Num ((i + Z.of_nat k) `mod` len (characters (ui w)))) w) ∧
  run (replicate (length (characters (ui w))) (KeyDown "ArrowDown")) w = Some w.
Proof.
  intros Hi Hr.
  pose proof (withCursor_same w) as Hw. rewrite Hi in Hw.
  assert (∀ n, run (replicate n (KeyDown "ArrowDown")) w =
    Some (withCursor (Num ((i + Z.of_nat n) `mod` len (characters (ui w)))) w))
    as Hrun.
  { intros n. rewrite <- (run_ArrowDown n w i Hr). by rewrite Hw. }
  split; [apply Hrun|].
  rewrite Hrun. fold (len (characters (ui w))).
  replace (i + len (characters (ui w)))
    with (i + 1 * len (characters (ui w))) by lia.
  rewrite Z_mod_plus_full, Z.mod_small by lia. by rewrite Hw.
Qed.

Lemma arrow_down_cycles_witness :
  run (replicate 2 (KeyDown "ArrowDown")) on_last =
    Some (withCursor (Num 1) on_last) ∧
  run (replicate 3 (KeyDown "ArrowDown")) on_last = Some on_last.
Proof.
  apply (arrow_down_cycles on_last 2 2).
  - reflexivity.
  - vm_compute. split; [discriminate | reflexivity].
Defined.

(** X14: a [NaN] cursor is not repaired by the keyboard: ArrowDown and
    ArrowUp leave it [NaN] whatever the list, and Enter on a non-empty list
    then commits nothing: it throws when SelectedSet has an entry and takes
    the widget down when it has none. *)
Theorem nan_cursor_stays w :
  highlightedIndex (ui w) = NaN →
  step (KeyDown "ArrowDown") w = Next w ∧
  step (KeyDown "ArrowUp") w = Next w ∧
  (characters (ui w) ≠ [] →
   step (KeyDown "Enter") w =
   match selectedCharacters (ui w) with [] => Crash | _ :: _ => Throws end).
Proof.
  intros Hn. pose proof (withCursor_same w) as Hw. rewrite Hn in Hw.
  rewrite step_ArrowDown_withCursor, step_ArrowUp_withCursor.
  unfold arrowDown, arrowUp. rewrite Hn. simpl. rewrite Hw.
  split; [done|]. split; [done|]. intros Hne.
  unfold handleKeyDown. simpl. apply len_pos in Hne. rewrite Hne, Hn. simpl.
  by destruct (selectedCharacters (ui w)).
Qed.

Lemma nan_cursor_stays_witness :
  step (KeyDown "ArrowDown") nan_on_list = Next nan_on_list ∧
  step (KeyDown "ArrowUp") nan_on_list = Next nan_on_list ∧
  (characters (ui nan_on_list) ≠ [] →
   step (KeyDown "Enter") nan_on_list = Crash).
Proof.
  apply (nan_cursor_stays nan_on_list). reflexivity.
Defined.

(** X15: hovering a rendered result row and then pressing Enter commits the
    candidate of that row, as a click on the row does. *)
Theorem hover_then_enter_commits_the_row w index character :
  resultsVisible (ui w) = true →
  characters (ui w) !! index = Some character →
  ∃ w1 w2 w3,
    step (MouseEnter index) w = Next w1 ∧
    step (KeyDown "Enter") w1 = Next w2 ∧
    step (Click index) w = Next w3 ∧
    committed character w w2 ∧
    ui w2 = setHighlightedIndex (Num (Z.of_nat index)) (ui w3) ∧
    requests w2 = requests w3 ∧ toasts w2 = toasts w3.
Proof.
  intros Hv Hc.
  assert (step (MouseEnter index) w = Next (withCursor (Num (Z.of_nat index)) w))
    as Hhover.
  { simpl. rewrite Hc, Hv. unfold handleMouseEnter.
    rewrite commit_quiet by done. by rewrite app_nil_r. }
  set (w1 := withCursor (Num (Z.of_nat index)) w) in *.
  assert (characters (ui w1) ≠ []) as Hne.
  { simpl. intros E. by rewrite E in Hc. }
  assert (target ByEnter (ui w1) = Some character) as Ht.
  { simpl. destruct (Z.ltb_spec (Z.of_nat index) 0); [lia|].
    by rewrite Nat2Z.id. }
  destruct (enter_commits_target w1 character Hne Ht) as [Hstep Hcomm].
  eexists w1, _, _. split; [done|]. split; [exact Hstep|].
  split; [simpl; by rewrite Hc, Hv|].
  split; [exact Hcomm|].
  unfold commit, depsChanged, useEffect, handleSelectCharacter. simpl.
  destruct (find (same_id character) (selectedCharacters (ui w))); simpl;
    destruct (String.eqb (query (ui w)) ""); simpl; done.
Qed.

Lemma hover_then_enter_commits_the_row_witness :
  ∃ w1 w2 w3,
    step (MouseEnter 0) on_last = Next w1 ∧
    step (KeyDown "Enter") w1 = Next w2 ∧
    step (Click 0) on_last = Next w3 ∧
    committed rick on_last w2 ∧
    ui w2 = setHighlightedIndex (Num 0) (ui w3) ∧
    requests w2 = requests w3 ∧ toasts w2 = toasts w3.
Proof.
  apply (hover_then_enter_commits_the_row on_last 0 rick); reflexivity.
Defined.

(** X16: after a fetch failure the candidate list is hidden and no row can
    be clicked, but the keyboard still works on it: Enter commits the
    candidate under the cursor of the hidden list. *)
Theorem enter_commits_from_the_hidden_list w n r character :
  pending w n = Some r →
  target ByEnter (ui w) = Some character →
  ∃ w1 w2,
    step (FetchReject n) w = Next w1 ∧
    resultsVisible (ui w1) = false ∧
    (∀ index, step (Click index) w1 = NotEnabled) ∧
    step (KeyDown "Enter") w1 = Next w2 ∧
    committed character w w2 ∧
    error (ui w2) = Some "Error fetching characters".
Proof.
  intros Hp Ht.
  set (w1 := {| ui := onRejected (ui w);
                requests := <[n := settle r]> (requests w);
                toasts := toasts w |}).
  assert (characters (ui w1) ≠ []) as Hne.
  { simpl. intros E. simpl in Ht. rewrite E in Ht.
    apply js_index_Some in Ht as (z & _ & _ & Hz). done. }
  destruct (enter_commits_target w1 character Hne Ht) as [Hstep Hcomm].
  exists w1, (commit w1 (handleSelectCharacter character (ui w1))).
  split; [simpl; by rewrite Hp|]. split; [done|]. split.
  { intros index. simpl. by destruct (characters (ui w) !! index). }
  split; [exact Hstep|]. split; [exact Hcomm|].
  unfold commit, depsChanged, useEffect, handleSelectCharacter. simpl.
  destruct (find (same_id character) (selectedCharacters (ui w))); simpl;
    destruct (String.eqb (query (ui w)) ""); simpl; done.
Qed.

Lemma enter_commits_from_the_hidden_list_witness :
  ∃ w1 w2,
    step (FetchReject 1) refining = Next w1 ∧
    resultsVisible (ui w1) = false ∧
    (∀ index, step (Click index) w1 = NotEnabled) ∧
    step (KeyDown "Enter") w1 = Next w2 ∧
    committed rick refining w2 ∧
    error (ui w2) = Some "Error fetching characters".
Proof.
  apply (enter_commits_from_the_hidden_list refining 1
    {| rq_query := "ab"; rq_selected := []; rq_settled := false |} rick);
    reflexivity.
Defined.

(** ** More on the Add action and the collections *)

(** X17: pressing Add twice in a row: the second press never moves
    anything. It raises the failure toast and leaves the state and the
    requests as the first press left them. *)
Theorem second_add_always_fails w :
  ∃ w1 w2,
    step ClickAdd w = Next w1 ∧ step ClickAdd w1 = Next w2 ∧
    ui w2 = ui w1 ∧ requests w2 = requests w1 ∧
    toasts w2 = toasts w1 ++ [ToastError "Lütfen tekrar deneyiniz."].
Proof.
  exists (commit w (handleAddCharacters (ui w))),
         (commit (commit w (handleAddCharacters (ui w)))
            (handleAddCharacters (ui (commit w (handleAddCharacters (ui w)))))).
  split; [done|]. split; [done|].
  set (w1 := commit w (handleAddCharacters (ui w))).
  assert (uniqueCharacters (ui w1) = []) as Hu.
  { destruct (commit_fields w (handleAddCharacters (ui w)))
      as (_ & _ & Hs & Ha & _). fold w1 in Hs, Ha.
    unfold uniqueCharacters. rewrite Hs, Ha.
    destruct (uniqueCharacters (ui w)) eqn:E.
    - rewrite handleAddCharacters_empty by done. exact E.
    - rewrite handleAddCharacters_moves by (rewrite E; done). done. }
  rewrite (handleAddCharacters_empty _ Hu).
  unfold commit at 1 2 3, depsChanged. simpl. by rewrite String.eqb_refl.
Qed.

(** X18: toasts are raised by the Add button and by the remove button of an
    added entry only, one toast per press; every other event, a fetch
    failure included, raises none, and no event removes a toast. *)
Theorem toasts_come_from_add_and_remove_added e w w' :
  step e w = Next w' → toasts w' = toasts w ++ raised e w.
Proof.
  intros Hstep. destruct e; simpl in *.
  - injection Hstep as <-.
    by destruct (commit_fields w (handleInputChange value (ui w)))
      as (_&_&_&_&->).
  - rewrite app_nil_r. unfold handleKeyDown in Hstep.
    destruct (String.eqb key "ArrowDown").
    { injection Hstep as <-. rewrite commit_quiet by done.
      simpl. apply app_nil_r. }
    destruct (String.eqb key "ArrowUp").
    { injection Hstep as <-. rewrite commit_quiet by done.
      simpl. apply app_nil_r. }
    assert (toasts (commit w (quiet (ui w))) = toasts w) as Hq.
    { rewrite commit_quiet by done. simpl. apply app_nil_r. }
    destruct (String.eqb key "Enter"); [|by injection Hstep as <-].
    destruct (0 <? len (characters (ui w))); [|by injection Hstep as <-].
    destruct (js_index _ _) as [c|];
      [|by destruct (selectedCharacters (ui w))].
    injection Hstep as <-.
    destruct (commit_fields w (handleSelectCharacter c (ui w)))
      as (_&_&_&_&->).
    unfold handleSelectCharacter.
    destruct (find _ _); simpl; apply app_nil_r.
  - destruct (characters (ui w) !! index); [|done].
    destruct (resultsVisible (ui w)); [|done]. injection Hstep as <-.
    by destruct (commit_fields w (handleMouseEnter index (ui w))) as (_&_&_&_&->).
  - destruct (characters (ui w) !! index) as [c|]; [|done].
    destruct (resultsVisible (ui w)); [|done]. injection Hstep as <-.
    destruct (commit_fields w (handleSelectCharacter c (ui w))) as (_&_&_&_&->).
    unfold handleSelectCharacter. by destruct (find _ _).
  - destruct (some _ _); [|done]. injection Hstep as <-.
    by destruct (commit_fields w (handleRemoveCharacter i (ui w))) as (_&_&_&_&->).
  - destruct (some _ _); [|done]. injection Hstep as <-.
    by destruct (commit_fields w (handleRemoveCharacterList i (ui w))) as (_&_&_&_&->).
  - injection Hstep as <-.
    destruct (commit_fields w (handleAddCharacters (ui w))) as (_&_&_&_&->).
    destruct (uniqueCharacters (ui w)) eqn:E.
    + by rewrite handleAddCharacters_empty.
    + rewrite handleAddCharacters_moves by (rewrite E; done). done.
  - destruct (pending w n); [|done]. injection Hstep as <-. simpl.
    by rewrite app_nil_r.
  - destruct (pending w n); [|done]. injection Hstep as <-. simpl.
    by rewrite app_nil_r.
Qed.

Lemma toasts_come_from_add_and_remove_added_witness :
  ∃ w', step (FetchReject 1) refining = Next w' ∧
        toasts w' = toasts refining ++ [].
Proof.
  eexists. split; [reflexivity|].
  apply (toasts_come_from_add_and_remove_added (FetchReject 1) refining).
  reflexivity.
Defined.

(** X19: SelectedSet is written only by Enter, a click on a row, the remove
    button of a tag and the Add button; AddedSet only by the Add button and
    the remove button of an added entry. Typing, the arrow keys, hovering
    and the settling of a fetch change neither collection. *)
Theorem collections_change_only_by_their_buttons e w w' :
  step e w = Next w' →
  (writesSelected e = false →
     selectedCharacters (ui w') = selectedCharacters (ui w)) ∧
  (writesAdded e = false →
     addedCharacters (ui w') = addedCharacters (ui w)).
Proof.
  intros Hstep. destruct e; simpl in *.
  - injection Hstep as <-.
    destruct (commit_fields w (handleInputChange value (ui w)))
      as (_&_&->&->&_). done.
  - unfold handleKeyDown in Hstep.
    destruct (String.eqb key "ArrowDown") eqn:Hd.
    { injection Hstep as <-.
      match goal with |- context [commit w ?u] =>
        destruct (commit_fields w u) as (_&_&->&->&_) end. done. }
    destruct (String.eqb key "ArrowUp") eqn:Hu.
    { injection Hstep as <-.
      match goal with |- context [commit w ?u] =>
        destruct (commit_fields w u) as (_&_&->&->&_) end. done. }
    destruct (String.eqb key "Enter") eqn:He.
    + split; [done|]. intros _.
      destruct (0 <? len (characters (ui w))).
      * destruct (js_index _ _) as [c|];
          [|by destruct (selectedCharacters (ui w))].
        injection Hstep as <-.
        destruct (commit_fields w (handleSelectCharacter c (ui w)))
          as (_&_&_&->&_).
        unfold handleSelectCharacter. by destruct (find _ _).
      * injection Hstep as <-.
        by destruct (commit_fields w (quiet (ui w))) as (_&_&_&->&_).
    + injection Hstep as <-.
      by destruct (commit_fields w (quiet (ui w))) as (_&_&->&->&_).
  - destruct (characters (ui w) !! index); [|done].
    destruct (resultsVisible (ui w)); [|done]. injection Hstep as <-.
    by destruct (commit_fields w (handleMouseEnter index (ui w)))
      as (_&_&->&->&_).
  - destruct (characters (ui w) !! index) as [c|]; [|done].
    destruct (resultsVisible (ui w)); [|done]. injection Hstep as <-.
    split; [done|]. intros _.
    destruct (commit_fields w (handleSelectCharacter c (ui w)))
      as (_&_&_&->&_).
    unfold handleSelectCharacter. by destruct (find _ _).
  - destruct (some _ _); [|done]. injection Hstep as <-.
    split; [done|]. intros _.
    by destruct (commit_fields w (handleRemoveCharacter i (ui w)))
      as (_&_&_&->&_).
  - destruct (some _ _); [|done]. injection Hstep as <-.
    split; [|done]. intros _.
    by destruct (commit_fields w (handleRemoveCharacterList i (ui w)))
      as (_&_&->&_&_).
  - done.
  - destruct (pending w n); [|done]. by injection Hstep as <-.
  - destruct (pending w n); [|done]. by injection Hstep as <-.
Qed.

Lemma collections_change_only_by_their_buttons_witness :
  ∃ w', step (FetchResolve 2 [morty]) two_selected = Next w' ∧
    selectedCharacters (ui w') = selectedCharacters (ui two_selected) ∧
    addedCharacters (ui w') = addedCharacters (ui two_selected).
Proof.
  let o := eval vm_compute in (step (FetchResolve 2 [morty]) two_selected) in
  assert (step (FetchResolve 2 [morty]) two_selected = o) as E
    by (vm_compute; reflexivity).
  match type of E with _ = Next ?w' => exists w' end.
  split; [exact E|].
  destruct (collections_change_only_by_their_buttons _ _ _ E) as [Hs Ha].
  split; [apply Hs | apply Ha]; reflexivity.
Defined.

(** ** More on the query fetcher *)

(** X20: whenever a fetcher returns, the request and the parse succeeded
    and the value it returns is truthy: it is the [results] member of the
    body as it stands, array or not, or else the empty array. The declared
    result type is not checked: a truthy [results] that is no array is
    returned as it is. *)
Theorem fetcher_returns_results_or_empty_array fetch query v :
  fetchCharacters fetch query = Fulfilled v →
  fetchDataHelper fetch query = Fulfilled v ∧
  json_truthy v = true ∧
  ∃ response data,
    fetch (endpoint query) = Some response ∧
    body response = Some data ∧
    (getProperty data "results" = Value v ∨ v = JArr []).
Proof.
  intros Hv. split; [exact Hv|]. unfold fetchCharacters in Hv.
  destruct (fetch (endpoint query)) as [response|]; [|done].
  destruct (body response) as [data|] eqn:Hb; [|done].
  destruct (getProperty data "results") as [r| |] eqn:Hr; [| |done].
  - simpl in Hv. destruct (json_truthy r) eqn:Ht; injection Hv as <-.
    + split; [done|]. exists response, data. eauto.
    + split; [done|]. exists response, data. eauto.
  - injection Hv as <-. split; [done|]. exists response, data. eauto.
Qed.

Lemma fetcher_returns_results_or_empty_array_witness :
  fetchDataHelper answersText "x" = Fulfilled (JStr "none") ∧
  json_truthy (JStr "none") = true ∧
  ∃ response data,
    answersText (endpoint "x") = Some response ∧
    body response = Some data ∧
    (getProperty data "results" = Value (JStr "none") ∨ JStr "none" = JArr []).
Proof.
  apply (fetcher_returns_results_or_empty_array answersText "x").
  reflexivity.
Defined.
